(** * RAG chat client: the streaming response pipeline

    A shallow embedding of the TypeScript front end:
    - [Js]         the string primitives of the platform the code calls
                   ([trim], [startsWith], [slice], [split], [toLowerCase]),
                   the streaming UTF-8 [TextDecoder] and [JSON.parse];
    - [Client]     [api/client.ts]: [streamChat], the SSE frame decoder;
    - [App]        [App.tsx]: the chat-session list and its operations;
    - [Chat]       [components/Chat.tsx]: submission, stream callbacks,
                   the typewriter timer and cancellation;
    - [FileUpload] [components/FileUpload.tsx]: the extension check.

    Text is a sequence of UTF-16 code units, as in the language of the
    source; transport chunks are sequences of bytes. *)

From Stdlib Require Import String Ascii DecimalString.
From Stdlib.Strings Require Import Byte.
From stdpp Require Import base numbers option list gmap.

Local Open Scope N_scope.

(* ===================================================================== *)
(** ** Platform strings *)
(* ===================================================================== *)

Module Js.

(** A string of the source language: its UTF-16 code units. *)
Definition jsstring := list N.

(** ASCII literals, written as ordinary string literals. *)
Definition js (s : string) : jsstring :=
  List.map N_of_ascii (list_ascii_of_string s).

(** White space and line terminators, the set that [String.prototype.trim]
    and the regular expression class [\s] remove. *)
Definition isWhiteSpace (c : N) : bool :=
  (9 <=? c) && (c <=? 13)
  || (c =? 32) || (c =? 160) || (c =? 5760)
  || (8192 <=? c) && (c <=? 8202)
  || (c =? 8232) || (c =? 8233) || (c =? 8239) || (c =? 8287)
  || (c =? 12288) || (c =? 65279).

Fixpoint trimStart (s : jsstring) : jsstring :=
  match s with
  | c :: s' => if isWhiteSpace c then trimStart s' else s
  | [] => []
  end.

Definition trimEnd (s : jsstring) : jsstring := rev (trimStart (rev s)).

Definition trim (s : jsstring) : jsstring := trimEnd (trimStart s).

(** [stripPrefix p s] is the rest of [s] after the prefix [p], when [s]
    starts with [p]. *)
Fixpoint stripPrefix (p s : jsstring) : option jsstring :=
  match p, s with
  | [], _ => Some s
  | a :: p', b :: s' => if a =? b then stripPrefix p' s' else None
  | _ :: _, [] => None
  end.

Definition startsWith (s p : jsstring) : bool :=
  match stripPrefix p s with Some _ => true | None => false end.

(** [s.slice(n)] for [0 <= n]. *)
Definition slice (n : nat) (s : jsstring) : jsstring := drop n s.

(** [s.slice(0, n)] for [0 <= n]. *)
Definition slice0 (n : nat) (s : jsstring) : jsstring := take n s.

(** The first occurrence of [sep] in [s]: the text before it and the text
    after it (the index search of [split]). *)
Fixpoint cut (sep s : jsstring) : option (jsstring * jsstring) :=
  match stripPrefix sep s with
  | Some rest => Some ([], rest)
  | None =>
      match s with
      | [] => None
      | c :: s' =>
          match cut sep s' with
          | Some (a, b) => Some (c :: a, b)
          | None => None
          end
      end
  end.

Fixpoint split_loop (n : nat) (sep s : jsstring) : list jsstring :=
  match n with
  | O => [s]
  | S n' =>
      match cut sep s with
      | Some (a, b) => a :: split_loop n' sep b
      | None => [s]
      end
  end.

(** [s.split(sep)] for a non-empty separator: every occurrence found from
    the left ends a segment, the text after the last one is the last
    segment.  Each round removes at least one code unit, so [length s]
    rounds are enough ([split_loop_enough]). *)
Definition split (sep s : jsstring) : list jsstring :=
  split_loop (length s) sep s.

(** [lines.pop() || ""] and what [pop] leaves in the array. *)
Definition pop_or_empty (lines : list jsstring) : jsstring :=
  default [] (last lines).

Definition isAsciiOnly (s : jsstring) : bool := forallb (fun c => c <? 128) s.

Definition asciiLower (c : N) : N :=
  if (65 <=? c) && (c <=? 90) then c + 32 else c.

(** [s.toLowerCase()].  On a string of ASCII code units it maps [A-Z] to
    [a-z]; what it does to other strings is the platform's Unicode case
    table, the parameter [unicodeLower]. *)
Definition toLowerCase (unicodeLower : jsstring -> jsstring) (s : jsstring)
  : jsstring :=
  if isAsciiOnly s then List.map asciiLower s else unicodeLower s.

(** [`${n}`] for a non-negative integer. *)
Definition numberToString (n : N) : jsstring :=
  js (NilEmpty.string_of_uint (N.to_uint n)).

(* --------------------------------------------------------------------- *)
(** *** [TextDecoder] in streaming mode

    [new TextDecoder()] decodes UTF-8, replaces malformed sequences by
    U+FFFD and drops one leading byte-order mark.  With [{stream: true}]
    the state below survives from one call of [decode] to the next and
    nothing is flushed at the end of a chunk. *)

Record Utf8Decoder := {
  code_point : N;
  bytes_seen : N;
  bytes_needed : N;
  lower_boundary : N;
  upper_boundary : N
}.

Definition utf8_reset : Utf8Decoder :=
  {| code_point := 0; bytes_seen := 0; bytes_needed := 0;
     lower_boundary := 128; upper_boundary := 191 |}.

Inductive HandlerResult :=
| Continue
| CodePoint (cp : N)
| DecodeError.

Definition inRange (lo hi b : N) : bool := (lo <=? b) && (b <=? hi).

(** A byte read when no sequence is open. *)
Definition utf8_lead (b : N) : Utf8Decoder * HandlerResult :=
  if b <=? 127 then (utf8_reset, CodePoint b)
  else if inRange 194 223 b then
    ({| code_point := N.land b 31; bytes_seen := 0; bytes_needed := 1;
        lower_boundary := 128; upper_boundary := 191 |}, Continue)
  else if inRange 224 239 b then
    ({| code_point := N.land b 15; bytes_seen := 0; bytes_needed := 2;
        lower_boundary := if b =? 224 then 160 else 128;
        upper_boundary := if b =? 237 then 159 else 191 |}, Continue)
  else if inRange 240 244 b then
    ({| code_point := N.land b 7; bytes_seen := 0; bytes_needed := 3;
        lower_boundary := if b =? 240 then 144 else 128;
        upper_boundary := if b =? 244 then 143 else 191 |}, Continue)
  else (utf8_reset, DecodeError).

(** One byte through the decoder.  A byte that cannot continue the open
    sequence ends it with an error and is read again as a lead byte. *)
Definition utf8_handler (d : Utf8Decoder) (b : N)
  : Utf8Decoder * list HandlerResult :=
  if bytes_needed d =? 0 then
    let '(d', r) := utf8_lead b in (d', [r])
  else if negb (inRange (lower_boundary d) (upper_boundary d) b) then
    let '(d', r) := utf8_lead b in (d', [DecodeError; r])
  else
    let cp := N.lor (N.shiftl (code_point d) 6) (N.land b 63) in
    let seen := bytes_seen d + 1 in
    if seen =? bytes_needed d then (utf8_reset, [CodePoint cp])
    else
      ({| code_point := cp; bytes_seen := seen;
          bytes_needed := bytes_needed d;
          lower_boundary := 128; upper_boundary := 191 |}, [Continue]).

Definition resultCodePoints (r : HandlerResult) : list N :=
  match r with
  | Continue => []
  | CodePoint cp => [cp]
  | DecodeError => [65533]
  end.

Definition utf16 (cp : N) : jsstring :=
  if cp <? 65536 then [cp]
  else
    let v := cp - 65536 in
    [55296 + N.shiftr v 10; 56320 + N.land v 1023].

Record TextDecoder := {
  utf8 : Utf8Decoder;
  bomSeen : bool
}.

Definition newTextDecoder : TextDecoder :=
  {| utf8 := utf8_reset; bomSeen := false |}.

(** The code points that leave the decoder: the first one is dropped when
    it is the byte-order mark. *)
Fixpoint serialize (seen : bool) (cps : list N) : bool * jsstring :=
  match cps with
  | [] => (seen, [])
  | cp :: rest =>
      if negb seen && (cp =? 65279) then serialize true rest
      else let '(seen', out) := serialize true rest in (seen', utf16 cp ++ out)
  end.

Definition decodeByte (td : TextDecoder) (b : byte) : TextDecoder * jsstring :=
  let '(d, rs) := utf8_handler (utf8 td) (Byte.to_N b) in
  let '(seen, out) := serialize (bomSeen td) (concat (List.map resultCodePoints rs)) in
  ({| utf8 := d; bomSeen := seen |}, out).

(** [decoder.decode(value, { stream: true })]. *)
Fixpoint decode (td : TextDecoder) (value : list byte) : TextDecoder * jsstring :=
  match value with
  | [] => (td, [])
  | b :: rest =>
      let '(td1, s1) := decodeByte td b in
      let '(td2, s2) := decode td1 rest in
      (td2, s1 ++ s2)
  end.

(** The bytes of an ASCII literal. *)
Definition bytes (s : string) : list byte := list_byte_of_string s.

(* --------------------------------------------------------------------- *)
(** *** [JSON.parse] *)

(** The values [JSON.parse] returns, and [undefined] for what a property
    access can add.  A number is kept as the decimal it was written as,
    [mantissa * 10 ^ exponent]. *)
#[warnings="-register-all"]
Inductive JSValue :=
| VUndefined
| VNull
| VBool (b : bool)
| VNumber (mantissa exponent : Z)
| VString (s : jsstring)
| VArray (items : list JSValue)
| VObject (props : list (jsstring * JSValue)).

Definition isJsonSpace (c : N) : bool :=
  (c =? 32) || (c =? 9) || (c =? 10) || (c =? 13).

Fixpoint skipSpace (s : jsstring) : jsstring :=
  match s with
  | c :: s' => if isJsonSpace c then skipSpace s' else s
  | [] => []
  end.

Definition isDigit (c : N) : bool := inRange 48 57 c.

Definition hexValue (c : N) : option N :=
  if inRange 48 57 c then Some (c - 48)
  else if inRange 65 70 c then Some (c - 55)
  else if inRange 97 102 c then Some (c - 87)
  else None.

(** The escapes of one letter: quote, backslash, slash, b, f, n, r, t. *)
Definition simpleEscape (c : N) : option N :=
  if c =? 34 then Some 34
  else if c =? 92 then Some 92
  else if c =? 47 then Some 47
  else if c =? 98 then Some 8
  else if c =? 102 then Some 12
  else if c =? 110 then Some 10
  else if c =? 114 then Some 13
  else if c =? 116 then Some 9
  else None.

(** The characters of a string literal after its opening quote, up to the
    closing quote. *)
Fixpoint parseChars (s : jsstring) (acc : jsstring)
  : option (jsstring * jsstring) :=
  match s with
  | [] => None
  | c :: r =>
      if c =? 34 then Some (rev acc, r)
      else if c =? 92 then
        match r with
        | [] => None
        | e :: r1 =>
            if e =? 117 then
              match r1 with
              | h1 :: h2 :: h3 :: h4 :: r2 =>
                  match hexValue h1, hexValue h2, hexValue h3, hexValue h4 with
                  | Some a, Some b, Some c', Some d =>
                      parseChars r2 (((a * 16 + b) * 16 + c') * 16 + d :: acc)
                  | _, _, _, _ => None
                  end
              | _ => None
              end
            else
              match simpleEscape e with
              | Some x => parseChars r1 (x :: acc)
              | None => None
              end
        end
      else if c <? 32 then None
      else parseChars r (c :: acc)
  end.

Fixpoint spanDigits (s : jsstring) : jsstring * jsstring :=
  match s with
  | c :: r =>
      if isDigit c then let '(ds, rest) := spanDigits r in (c :: ds, rest)
      else ([], s)
  | [] => ([], [])
  end.

Definition digitsValue (ds : jsstring) : Z :=
  fold_left (fun acc c => (acc * 10 + Z.of_N (c - 48))%Z) ds 0%Z.

(** [int]: a single [0], or a non-zero digit and more digits. *)
Definition parseInt (s : jsstring) : option (jsstring * jsstring) :=
  match s with
  | c :: r =>
      if c =? 48 then Some ([c], r)
      else if isDigit c then Some (spanDigits s)
      else None
  | [] => None
  end.

(** [frac]: nothing, or a point and at least one digit. *)
Definition parseFrac (s : jsstring) : option (jsstring * jsstring) :=
  match s with
  | c :: r =>
      if c =? 46 then
        match spanDigits r with
        | ([], _) => None
        | (ds, rest) => Some (ds, rest)
        end
      else Some ([], s)
  | [] => Some ([], [])
  end.

(** [exp]: nothing, or [e]/[E], a sign and at least one digit. *)
Definition parseExp (s : jsstring) : option (Z * jsstring) :=
  match s with
  | c :: r =>
      if (c =? 101) || (c =? 69) then
        let '(neg, r1) :=
          match r with
          | sg :: r' =>
              if sg =? 45 then (true, r')
              else if sg =? 43 then (false, r')
              else (false, r)
          | [] => (false, r)
          end in
        match spanDigits r1 with
        | ([], _) => None
        | (ds, rest) =>
            Some ((if neg then - digitsValue ds else digitsValue ds)%Z, rest)
        end
      else Some (0%Z, s)
  | [] => Some (0%Z, [])
  end.

Definition parseNumber (s : jsstring) : option (JSValue * jsstring) :=
  let '(neg, s1) :=
    match s with
    | c :: r => if c =? 45 then (true, r) else (false, s)
    | [] => (false, s)
    end in
  match parseInt s1 with
  | None => None
  | Some (ip, s2) =>
      match parseFrac s2 with
      | None => None
      | Some (fp, s3) =>
          match parseExp s3 with
          | None => None
          | Some (e, s4) =>
              let m := digitsValue (ip ++ fp) in
              Some (VNumber (if neg then - m else m)%Z
                            (e - Z.of_nat (length fp))%Z, s4)
          end
      end
  end.

Definition parseLiteral (s : jsstring) : option (JSValue * jsstring) :=
  match stripPrefix (js "true") s with
  | Some r => Some (VBool true, r)
  | None =>
      match stripPrefix (js "false") s with
      | Some r => Some (VBool false, r)
      | None =>
          match stripPrefix (js "null") s with
          | Some r => Some (VNull, r)
          | None => parseNumber s
          end
      end
  end.

(** A value, the elements of an array after its first bracket and the
    members of an object after its first brace.  [fuel] bounds the calls;
    two for each code unit of the text are enough ([parse_fuel]). *)
Fixpoint parseValue (fuel : nat) (s : jsstring) {struct fuel}
  : option (JSValue * jsstring) :=
  match fuel with
  | O => None
  | S fuel' =>
      match skipSpace s with
      | [] => None
      | c :: r =>
          if c =? 123 then
            match skipSpace r with
            | c' :: r' =>
                if c' =? 125 then Some (VObject [], r')
                else parseMembers fuel' r []
            | [] => None
            end
          else if c =? 91 then
            match skipSpace r with
            | c' :: r' =>
                if c' =? 93 then Some (VArray [], r')
                else parseElements fuel' r []
            | [] => None
            end
          else if c =? 34 then
            match parseChars r [] with
            | Some (str, r') => Some (VString str, r')
            | None => None
            end
          else parseLiteral (c :: r)
      end
  end
with parseElements (fuel : nat) (s : jsstring) (acc : list JSValue)
  {struct fuel} : option (JSValue * jsstring) :=
  match fuel with
  | O => None
  | S fuel' =>
      match parseValue fuel' s with
      | Some (v, r) =>
          match skipSpace r with
          | c :: r' =>
              if c =? 44 then parseElements fuel' r' (v :: acc)
              else if c =? 93 then Some (VArray (rev (v :: acc)), r')
              else None
          | [] => None
          end
      | None => None
      end
  end
with parseMembers (fuel : nat) (s : jsstring)
  (acc : list (jsstring * JSValue)) {struct fuel}
  : option (JSValue * jsstring) :=
  match fuel with
  | O => None
  | S fuel' =>
      match skipSpace s with
      | c :: r =>
          if c =? 34 then
            match parseChars r [] with
            | Some (k, r1) =>
                match skipSpace r1 with
                | c1 :: r2 =>
                    if c1 =? 58 then
                      match parseValue fuel' r2 with
                      | Some (v, r3) =>
                          match skipSpace r3 with
                          | c3 :: r4 =>
                              if c3 =? 44 then
                                parseMembers fuel' r4 ((k, v) :: acc)
                              else if c3 =? 125 then
                                Some (VObject (rev ((k, v) :: acc)), r4)
                              else None
                          | [] => None
                          end
                      | None => None
                      end
                    else None
                | [] => None
                end
            | None => None
            end
          else None
      | [] => None
      end
  end.

(** [JSON.parse(text)]; [None] is the [SyntaxError] it throws. *)
Definition JSON_parse (text : jsstring) : option JSValue :=
  match parseValue (2 * length text + 2) text with
  | Some (v, r) =>
      match skipSpace r with
      | [] => Some v
      | _ :: _ => None
      end
  | None => None
  end.

Definition jsstring_eqb (a b : jsstring) : bool := bool_decide (a = b).

(** The own property [key] of an object; of two members with one name the
    later one is kept. *)
Definition lookupProp (props : list (jsstring * JSValue)) (key : jsstring)
  : JSValue :=
  match find (fun kv => jsstring_eqb (fst kv) key) (rev props) with
  | Some kv => snd kv
  | None => VUndefined
  end.

(** [value.key] for the keys the client reads, [type] and [content], which
    no built-in prototype defines: [None] is the [TypeError] of reading a
    property of [null] or [undefined]. *)
Definition getProp (value : JSValue) (key : jsstring) : option JSValue :=
  match value with
  | VUndefined | VNull => None
  | VObject props => Some (lookupProp props key)
  | VBool _ | VNumber _ _ | VString _ | VArray _ => Some VUndefined
  end.

(** A decimal that the platform's double rounds to zero: zero itself, or
    at most half the smallest subnormal, [2 ^ -1075]. *)
Definition roundsToZero (m e : Z) : bool :=
  ((m =? 0) ||
   (e <? 0) && (Z.abs m * 2 ^ 1075 <=? 10 ^ (- e)))%Z.

(** Truthiness, as [||] tests it. *)
Definition truthy (v : JSValue) : bool :=
  match v with
  | VUndefined | VNull => false
  | VBool b => b
  | VNumber m e => negb (roundsToZero m e)
  | VString s => negb (jsstring_eqb s [])
  | VArray _ | VObject _ => true
  end.

(** [value === "literal"]. *)
Definition isString (value : JSValue) (s : jsstring) : bool :=
  match value with
  | VString t => jsstring_eqb t s
  | _ => false
  end.

End Js.

(* ===================================================================== *)
(** ** [api/client.ts] *)
(* ===================================================================== *)

Module Client.
Import Js.

Inductive Page :=
| PageNumber (n : Z)
| PageLabel (s : jsstring).

Record Source := {
  filename : jsstring;
  page : Page;
  snippet : option jsstring
}.

Inductive Role := user | assistant.

Record ChatMessage := {
  role : Role;
  content : jsstring;
  sources : option (list Source)
}.

Definition Role_eqb (a b : Role) : bool :=
  match a, b with
  | user, user | assistant, assistant => true
  | _, _ => false
  end.

(** What is thrown into the [catch] of [streamChat]: the abort of the
    request, or anything else, given by its text [`${error}`]. *)
Inductive Exn :=
| AbortError
| OtherError (text : jsstring).

(** One [await reader.read()] that does not report the end of the body:
    the end is the end of the list. *)
Inductive ReadResult :=
| ReadChunk (value : list byte)
| ReadThrows (e : Exn).

Record Response := {
  ok : bool;
  status : N;
  text : Exn + jsstring;
  body : option (list ReadResult)
}.

Inductive FetchResult :=
| FetchThrows (e : Exn)
| FetchResolves (response : Response).

(** The calls [streamChat] makes to its four callbacks, with the values it
    passes. *)
Inductive Call :=
| onToken (token : JSValue)
| onSources (sources : JSValue)
| onDone
| onError (error : JSValue).

(** The body of the request: [{ question, chat_history: history }]. *)
Definition history (chatHistory : list ChatMessage) : list (Role * jsstring) :=
  List.map (fun msg => (role msg, content msg)) chatHistory.

(** The frame delimiter, two line feeds. *)
Definition delimiter : jsstring := [10; 10].

Definition dataPrefix : jsstring := js "data: ".

(** The [switch] on [event.type]; [None] is an exception, thrown inside
    the [try]. *)
Definition dispatch (event : JSValue) : option (list Call) :=
  type ← getProp event (js "type");
  if isString type (js "token") then
    content ← getProp event (js "content"); Some [onToken content]
  else if isString type (js "sources") then
    content ← getProp event (js "content");
    Some [onSources (if truthy content then content else VArray [])]
  else if isString type (js "done") then Some [onDone]
  else if isString type (js "error") then
    content ← getProp event (js "content"); Some [onError content]
  else Some [].

(** The body of [for (const line of lines)]. *)
Definition handleLine (line : jsstring) : list Call :=
  let trimmed := trim line in
  if negb (startsWith trimmed dataPrefix) then []
  else
    let jsonStr := slice 6 trimmed in
    match event ← JSON_parse jsonStr; dispatch event with
    | Some calls => calls
    | None => []
    end.

(** The variables of the read loop. *)
Record LoopState := {
  decoder : TextDecoder;
  buffer : jsstring
}.

Definition loopStart : LoopState :=
  {| decoder := newTextDecoder; buffer := [] |}.

(** One round of [while (true)] for a chunk [value]. *)
Definition readChunk (st : LoopState) (value : list byte)
  : LoopState * list Call :=
  let '(td, text) := decode (decoder st) value in
  let lines := split delimiter (buffer st ++ text) in
  ({| decoder := td; buffer := pop_or_empty lines |},
   flat_map handleLine (removelast lines)).

(** The calls made round by round, one list for each chunk. *)
Fixpoint readChunks (st : LoopState) (chunks : list (list byte))
  : LoopState * list (list Call) :=
  match chunks with
  | [] => (st, [])
  | value :: rest =>
      let '(st1, calls) := readChunk st value in
      let '(st2, more) := readChunks st1 rest in
      (st2, calls :: more)
  end.

(** The read loop: the calls made, and the exception that ended it if one
    did. *)
Fixpoint readLoop (st : LoopState) (reads : list ReadResult)
  : list Call * option Exn :=
  match reads with
  | [] => ([], None)
  | ReadChunk value :: rest =>
      let '(st1, calls) := readChunk st value in
      let '(more, e) := readLoop st1 rest in
      (calls ++ more, e)
  | ReadThrows e :: _ => ([], Some e)
  end.

(** The notices of the source, which are in Russian: connection error,
    server error, no readable stream. *)
Definition connectionErrorPrefix : jsstring :=
  [1054; 1096; 1080; 1073; 1082; 1072; 32; 1089; 1086; 1077; 1076; 1080;
   1085; 1077; 1085; 1080; 1103; 58; 32].

Definition serverErrorPrefix : jsstring :=
  [1054; 1096; 1080; 1073; 1082; 1072; 32; 1089; 1077; 1088; 1074; 1077;
   1088; 1072; 58; 32].

Definition dash : jsstring := [32; 8212; 32].

Definition noStreamNotice : jsstring :=
  [1053; 1077; 32; 1091; 1076; 1072; 1083; 1086; 1089; 1100; 32; 1087;
   1086; 1083; 1091; 1095; 1080; 1090; 1100; 32] ++ js "ReadableStream".

(** The outer [catch]. *)
Definition catchError (e : Exn) : list Call :=
  match e with
  | AbortError => []
  | OtherError t => [onError (VString (connectionErrorPrefix ++ t))]
  end.

(** [streamChat], given what the network does with its request. *)
Definition streamChat (net : FetchResult) : list Call :=
  match net with
  | FetchThrows e => catchError e
  | FetchResolves response =>
      if negb (ok response) then
        match text response with
        | inl e => catchError e
        | inr err =>
            [onError (VString (serverErrorPrefix
                               ++ numberToString (status response)
                               ++ dash ++ err))]
        end
      else
        match body response with
        | None => [onError (VString noStreamNotice)]
        | Some reads =>
            let '(calls, e) := readLoop loopStart reads in
            calls ++ match e with Some e' => catchError e' | None => [] end
        end
  end.

(** A response whose body arrives in the given chunks and then ends. *)
Definition streamOf (chunks : list (list byte)) : FetchResult :=
  FetchResolves {| ok := true; status := 200; text := inr [];
                   body := Some (List.map ReadChunk chunks) |}.

End Client.

(* ===================================================================== *)
(** ** [App.tsx]: the chat sessions *)
(* ===================================================================== *)

Module App.
Import Js Client.

Record ChatSession := {
  id : jsstring;
  title : jsstring;
  messages : list ChatMessage;
  createdAt : jsstring;
  updatedAt : jsstring
}.

(** The default title of the source, in Russian: new chat. *)
Definition DEFAULT_CHAT_TITLE : jsstring :=
  [1053; 1086; 1074; 1099; 1081; 32; 1095; 1072; 1090].

(** [createChatSession()]: the identifier and the time are what the
    platform hands out ([crypto.randomUUID()], [new Date()]). *)
Definition createChatSession (newId now : jsstring) : ChatSession :=
  {| id := newId; title := DEFAULT_CHAT_TITLE; messages := [];
     createdAt := now; updatedAt := now |}.

(** [s.replace(/\s+/g, " ")]. *)
Fixpoint collapseSpace (inRun : bool) (s : jsstring) : jsstring :=
  match s with
  | [] => []
  | c :: r =>
      if isWhiteSpace c then
        if inRun then collapseSpace true r else 32 :: collapseSpace true r
      else c :: collapseSpace false r
  end.

Definition isEmpty (s : jsstring) : bool :=
  match s with [] => true | _ :: _ => false end.

Definition deriveChatTitle (msgs : list ChatMessage) : jsstring :=
  match find (fun m => Role_eqb (role m) user
                       && negb (isEmpty (trim (content m)))) msgs with
  | None => DEFAULT_CHAT_TITLE
  | Some firstUser =>
      let oneLine := trim (collapseSpace false (content firstUser)) in
      if (length oneLine <=? 42)%nat then oneLine
      else slice0 42 oneLine ++ js "..."
  end.

(** What [localStorage.getItem] does. *)
Inductive Stored :=
| StorageThrows
| NoItem
| Item (raw : jsstring).

(** The initializer of [chats].  [parseSessions] is
    [JSON.parse(raw) as ChatSession[]]: the sessions the text holds, or
    [None] when reading it throws. *)
Definition initChats (parseSessions : jsstring -> option (list ChatSession))
  (stored : Stored) (fresh : ChatSession) : list ChatSession :=
  match stored with
  | StorageThrows => [fresh]
  | NoItem => [fresh]
  | Item raw =>
      if isEmpty raw then [fresh]
      else
        match parseSessions raw with
        | Some parsed =>
            if (0 <? length parsed)%nat then parsed else [fresh]
        | None => [fresh]
        end
  end.

(** The initializer of [activeChatId]: [saved || ""]. *)
Definition initActiveChatId (saved : option jsstring) : jsstring :=
  default [] saved.

Record State := {
  chats : list ChatSession;
  activeChatId : jsstring
}.

Definition hasId (chatId : jsstring) (c : ChatSession) : bool :=
  jsstring_eqb (id c) chatId.

(** [chats.find((c) => c.id === activeChatId) ?? chats[0]]. *)
Definition activeChat (s : State) : option ChatSession :=
  match find (hasId (activeChatId s)) (chats s) with
  | Some c => Some c
  | None => head (chats s)
  end.

(** The effect on [activeChatId, chats]. *)
Definition syncActiveChatId (s : State) : State :=
  match chats s with
  | [] => s
  | first :: _ =>
      if isEmpty (activeChatId s) then
        {| chats := chats s; activeChatId := id first |}
      else if negb (existsb (hasId (activeChatId s)) (chats s)) then
        {| chats := chats s; activeChatId := id first |}
      else s
  end.

Definition setActiveChatId (chatId : jsstring) (s : State) : State :=
  {| chats := chats s; activeChatId := chatId |}.

Definition createNewChat (newId now : jsstring) (s : State) : State :=
  let next := createChatSession newId now in
  {| chats := next :: chats s; activeChatId := id next |}.

Definition removeChat (chatId : jsstring) (newId now : jsstring) (s : State)
  : State :=
  let prev := chats s in
  if (length prev <=? 1)%nat then
    let fresh := createChatSession newId now in
    {| chats := [fresh]; activeChatId := id fresh |}
  else
    let filtered := List.filter (fun c => negb (hasId chatId c)) prev in
    match filtered with
    | first :: _ =>
        if jsstring_eqb (activeChatId s) chatId then
          {| chats := filtered; activeChatId := id first |}
        else {| chats := filtered; activeChatId := activeChatId s |}
    | [] => {| chats := filtered; activeChatId := activeChatId s |}
    end.

(** The function given to [setChats] by [updateActiveChatMessages], for
    the session [chatId] that was active when the function was made. *)
Definition updateMessagesOf (chatId : jsstring)
  (updater : list ChatMessage -> list ChatMessage) (now : jsstring)
  (prev : list ChatSession) : list ChatSession :=
  List.map (fun chat =>
         if negb (hasId chatId chat) then chat
         else
           let nextMessages := updater (messages chat) in
           {| id := id chat;
              title := deriveChatTitle nextMessages;
              messages := nextMessages;
              createdAt := createdAt chat;
              updatedAt := now |}) prev.

Definition updateActiveChatMessages
  (updater : list ChatMessage -> list ChatMessage) (now : jsstring)
  (s : State) : State :=
  match activeChat s with
  | None => s
  | Some active =>
      {| chats := updateMessagesOf (id active) updater now (chats s);
         activeChatId := activeChatId s |}
  end.

(** The messages shown for a session: those of the first one with the
    identifier. *)
Definition messagesOf (chatId : jsstring) (l : list ChatSession)
  : option (list ChatMessage) :=
  messages <$> find (hasId chatId) l.

End App.

(* ===================================================================== *)
(** ** [components/Chat.tsx] *)
(* ===================================================================== *)

Module Chat.
Import Js Client.

Definition TYPEWRITER_INTERVAL_MS : N := 14.
Definition CHARS_PER_TICK : nat := 1.

(** The prefix of the error notice of the source, in Russian: error. *)
Definition errorNotice : jsstring :=
  [1054; 1096; 1080; 1073; 1082; 1072; 58; 32].

(** *** The functions given to [onMessagesChange] *)

(** [const updated = [...prev]; const last = updated[updated.length - 1];
    if (last?.role === "assistant") updated[updated.length - 1] = change;
    return updated].  On the empty list the index is -1 and [last] is
    undefined; reading index [0 - 1 = 0] of it finds nothing either. *)
Definition changeLastAssistant (change : ChatMessage -> ChatMessage)
  (prev : list ChatMessage) : list ChatMessage :=
  let updated := prev in
  match updated !! (length updated - 1)%nat with
  | Some last =>
      if Role_eqb (role last) assistant then
        <[(length updated - 1)%nat := change last]> updated
      else updated
  | None => updated
  end.

(** The function of [appendAssistantChunk]. *)
Definition appendUpdater (chunk : jsstring) : list ChatMessage -> list ChatMessage :=
  changeLastAssistant (fun last =>
    {| role := role last; content := content last ++ chunk;
       sources := sources last |}).

(** The function of the [onSources] callback. *)
Definition sourcesUpdater (srcs : list Source) : list ChatMessage -> list ChatMessage :=
  changeLastAssistant (fun last =>
    {| role := role last; content := content last;
       sources := Some srcs |}).

(** The function of the [onError] callback. *)
Definition errorUpdater (error : jsstring) : list ChatMessage -> list ChatMessage :=
  changeLastAssistant (fun last =>
    {| role := role last; content := errorNotice ++ error;
       sources := sources last |}).

(** The function of [handleSubmit]. *)
Definition submitUpdater (question : jsstring) (prev : list ChatMessage)
  : list ChatMessage :=
  let userMessage := {| role := user; content := question; sources := None |} in
  let assistantMessage :=
    {| role := assistant; content := []; sources := Some [] |} in
  prev ++ [userMessage; assistantMessage].

(** *** The component and what it shares with its callbacks *)

(** An [AbortController] made by [handleSubmit], with what the callbacks
    made beside it hold on to: the [onMessagesChange] of that render, which
    changes the session [boundTo]. *)
Record Controller := {
  ctrl : nat;
  boundTo : jsstring
}.

(** The sessions of [App], the state and the references of one [Chat], the
    controllers made so far and those whose signal is aborted.  A running
    interval is given by the session its callback changes. *)
Record World := {
  app : App.State;
  chatId : jsstring;
  input : jsstring;
  isLoading : bool;
  requestControllerRef : option nat;
  tokenQueueRef : jsstring;
  streamDoneRef : bool;
  typingTimerRef : option jsstring;
  aborted : gset nat;
  controllers : nat
}.

Definition set_app (a : App.State) (w : World) : World :=
  {| app := a; chatId := chatId w; input := input w;
     isLoading := isLoading w;
     requestControllerRef := requestControllerRef w;
     tokenQueueRef := tokenQueueRef w; streamDoneRef := streamDoneRef w;
     typingTimerRef := typingTimerRef w; aborted := aborted w;
     controllers := controllers w |}.

Definition set_chatId (c : jsstring) (w : World) : World :=
  {| app := app w; chatId := c; input := input w;
     isLoading := isLoading w;
     requestControllerRef := requestControllerRef w;
     tokenQueueRef := tokenQueueRef w; streamDoneRef := streamDoneRef w;
     typingTimerRef := typingTimerRef w; aborted := aborted w;
     controllers := controllers w |}.

Definition setInput (s : jsstring) (w : World) : World :=
  {| app := app w; chatId := chatId w; input := s;
     isLoading := isLoading w;
     requestControllerRef := requestControllerRef w;
     tokenQueueRef := tokenQueueRef w; streamDoneRef := streamDoneRef w;
     typingTimerRef := typingTimerRef w; aborted := aborted w;
     controllers := controllers w |}.

Definition setIsLoading (b : bool) (w : World) : World :=
  {| app := app w; chatId := chatId w; input := input w;
     isLoading := b;
     requestControllerRef := requestControllerRef w;
     tokenQueueRef := tokenQueueRef w; streamDoneRef := streamDoneRef w;
     typingTimerRef := typingTimerRef w; aborted := aborted w;
     controllers := controllers w |}.

Definition set_requestControllerRef (r : option nat) (w : World) : World :=
  {| app := app w; chatId := chatId w; input := input w;
     isLoading := isLoading w;
     requestControllerRef := r;
     tokenQueueRef := tokenQueueRef w; streamDoneRef := streamDoneRef w;
     typingTimerRef := typingTimerRef w; aborted := aborted w;
     controllers := controllers w |}.

Definition set_tokenQueueRef (q : jsstring) (w : World) : World :=
  {| app := app w; chatId := chatId w; input := input w;
     isLoading := isLoading w;
     requestControllerRef := requestControllerRef w;
     tokenQueueRef := q; streamDoneRef := streamDoneRef w;
     typingTimerRef := typingTimerRef w; aborted := aborted w;
     controllers := controllers w |}.

Definition set_streamDoneRef (b : bool) (w : World) : World :=
  {| app := app w; chatId := chatId w; input := input w;
     isLoading := isLoading w;
     requestControllerRef := requestControllerRef w;
     tokenQueueRef := tokenQueueRef w; streamDoneRef := b;
     typingTimerRef := typingTimerRef w; aborted := aborted w;
     controllers := controllers w |}.

Definition set_typingTimerRef (t : option jsstring) (w : World) : World :=
  {| app := app w; chatId := chatId w; input := input w;
     isLoading := isLoading w;
     requestControllerRef := requestControllerRef w;
     tokenQueueRef := tokenQueueRef w; streamDoneRef := streamDoneRef w;
     typingTimerRef := t; aborted := aborted w;
     controllers := controllers w |}.

Definition set_aborted (a : gset nat) (w : World) : World :=
  {| app := app w; chatId := chatId w; input := input w;
     isLoading := isLoading w;
     requestControllerRef := requestControllerRef w;
     tokenQueueRef := tokenQueueRef w; streamDoneRef := streamDoneRef w;
     typingTimerRef := typingTimerRef w; aborted := a;
     controllers := controllers w |}.

Definition set_controllers (n : nat) (w : World) : World :=
  {| app := app w; chatId := chatId w; input := input w;
     isLoading := isLoading w;
     requestControllerRef := requestControllerRef w;
     tokenQueueRef := tokenQueueRef w; streamDoneRef := streamDoneRef w;
     typingTimerRef := typingTimerRef w; aborted := aborted w;
     controllers := n |}.

(** [onMessagesChange(updater)] of the render in which [chatId] was the
    active session. *)
Definition onMessagesChange (chatId : jsstring)
  (updater : list ChatMessage -> list ChatMessage) (now : jsstring)
  (w : World) : World :=
  set_app {| App.chats := App.updateMessagesOf chatId updater now
                            (App.chats (app w));
             App.activeChatId := App.activeChatId (app w) |} w.

(** [controller.signal.aborted]. *)
Definition signalAborted (c : Controller) (w : World) : bool :=
  bool_decide (ctrl c ∈ aborted w).

(** [requestControllerRef.current?.abort()]. *)
Definition abortCurrent (w : World) : World :=
  match requestControllerRef w with
  | Some c => set_aborted ({[ c ]} ∪ aborted w) w
  | None => w
  end.

Definition appendAssistantChunk (chatId : jsstring) (now : jsstring)
  (chunk : jsstring) (w : World) : World :=
  onMessagesChange chatId (appendUpdater chunk) now w.

Definition stopTypingTimer (w : World) : World :=
  set_typingTimerRef None w.

Definition finalizeIfStreamFinished (w : World) : World :=
  if streamDoneRef w && (length (tokenQueueRef w) =? 0)%nat then
    set_requestControllerRef None (setIsLoading false (stopTypingTimer w))
  else w.

Definition startTypewriter (chatId : jsstring) (w : World) : World :=
  match typingTimerRef w with
  | Some _ => w
  | None => set_typingTimerRef (Some chatId) w
  end.

(** The callback of the interval, when one is running. *)
Definition tick (now : jsstring) (w : World) : World :=
  match typingTimerRef w with
  | None => w
  | Some chatId =>
      if (length (tokenQueueRef w) =? 0)%nat then finalizeIfStreamFinished w
      else
        let chunk := slice0 CHARS_PER_TICK (tokenQueueRef w) in
        let w1 := set_tokenQueueRef (slice CHARS_PER_TICK (tokenQueueRef w)) w in
        finalizeIfStreamFinished (appendAssistantChunk chatId now chunk w1)
  end.

(** The request [handleSubmit] hands to [streamChat]. *)
Record Request := {
  question : jsstring;
  chatHistory : list ChatMessage;
  controller : Controller
}.

(** The [messages] of the last render: those of the active session. *)
Definition messagesProp (w : World) : list ChatMessage :=
  match App.activeChat (app w) with
  | Some active => App.messages active
  | None => []
  end.

(** [handleSubmit]: the next world and the request made, if one is.
    ([e?.preventDefault()] acts on the form event alone.) *)
Definition handleSubmit (now : jsstring) (w : World) : World * option Request :=
  let question := trim (input w) in
  if App.isEmpty question || isLoading w then (w, None)
  else
    let controller := {| ctrl := controllers w; boundTo := chatId w |} in
    let w1 := set_controllers (S (controllers w)) w in
    let w2 := set_requestControllerRef (Some (ctrl controller)) w1 in
    let w3 := set_tokenQueueRef [] w2 in
    let w4 := set_streamDoneRef false w3 in
    let w5 := stopTypingTimer w4 in
    let w6 := onMessagesChange (chatId w) (submitUpdater question) now w5 in
    let w7 := setInput [] w6 in
    let w8 := setIsLoading true w7 in
    (w8, Some {| question := question; chatHistory := messagesProp w;
                 controller := controller |}).

(** The four callbacks [handleSubmit] gives to [streamChat]. *)
Definition tokenCallback (c : Controller) (token : jsstring) (w : World)
  : World :=
  if signalAborted c w then w
  else startTypewriter (boundTo c)
         (set_tokenQueueRef (tokenQueueRef w ++ token) w).

Definition sourcesCallback (c : Controller) (now : jsstring)
  (srcs : list Source) (w : World) : World :=
  if signalAborted c w then w
  else onMessagesChange (boundTo c) (sourcesUpdater srcs) now w.

Definition doneCallback (c : Controller) (w : World) : World :=
  if signalAborted c w then w
  else finalizeIfStreamFinished (set_streamDoneRef true w).

Definition errorCallback (c : Controller) (now : jsstring)
  (error : jsstring) (w : World) : World :=
  if signalAborted c w then w
  else
    let w1 := stopTypingTimer w in
    let w2 := set_tokenQueueRef [] w1 in
    let w3 := set_streamDoneRef false w2 in
    let w4 := onMessagesChange (boundTo c) (errorUpdater error) now w3 in
    let w5 := setIsLoading false w4 in
    set_requestControllerRef None w5.

(** The effect on [chatId]. *)
Definition chatIdEffect (w : World) : World :=
  let w1 := stopTypingTimer w in
  let w2 := set_tokenQueueRef [] w1 in
  let w3 := set_streamDoneRef false w2 in
  let w4 := abortCurrent w3 in
  let w5 := set_requestControllerRef None w4 in
  let w6 := setIsLoading false w5 in
  setInput [] w6.

(** The cleanup of the component. *)
Definition unmountCleanup (w : World) : World :=
  let w1 := stopTypingTimer w in
  let w2 := abortCurrent w1 in
  set_requestControllerRef None w2.

(** [App] renders again after a change of its state: its effect settles
    [activeChatId], and [Chat] is given the active session, runs its
    effect when that is another one than before, and is taken away when
    there is none.  (The world is that of the one [Chat] shown from the
    start; a second one, shown after the list was empty, is not part of
    it.) *)
Definition rerender (a : App.State) (w : World) : World :=
  let a' := App.syncActiveChatId a in
  match App.activeChat a' with
  | None => unmountCleanup (set_app a' w)
  | Some active =>
      if jsstring_eqb (App.id active) (chatId w) then set_app a' w
      else chatIdEffect (set_chatId (App.id active) (set_app a' w))
  end.

(** What can happen to the component, one at a time. *)
Inductive Event :=
| Typing (s : jsstring)
| Submit (now : jsstring)
| Token (c : Controller) (token : jsstring)
| Sources (c : Controller) (now : jsstring) (srcs : list Source)
| Done (c : Controller)
| Error (c : Controller) (now : jsstring) (error : jsstring)
| Tick (now : jsstring)
| SelectChat (chatId : jsstring)
| NewChat (newId now : jsstring)
| RemoveChat (chatId newId now : jsstring)
| Unmount.

Definition step (w : World) (e : Event) : World :=
  match e with
  | Typing s => setInput s w
  | Submit now => fst (handleSubmit now w)
  | Token c token => tokenCallback c token w
  | Sources c now srcs => sourcesCallback c now srcs w
  | Done c => doneCallback c w
  | Error c now error => errorCallback c now error w
  | Tick now => tick now w
  | SelectChat chatId => rerender (App.setActiveChatId chatId (app w)) w
  | NewChat newId now => rerender (App.createNewChat newId now (app w)) w
  | RemoveChat chatId newId now =>
      rerender (App.removeChat chatId newId now (app w)) w
  | Unmount => unmountCleanup w
  end.

Definition run (w : World) (trace : list Event) : World :=
  fold_left step trace w.

(** The events that are a callback of the stream of controller [c]. *)
Definition fromStream (c : Controller) (e : Event) : bool :=
  match e with
  | Token c' _ | Sources c' _ _ | Done c' | Error c' _ _ =>
      bool_decide (ctrl c' = ctrl c)
  | _ => false
  end.

End Chat.

(* ===================================================================== *)
(** ** [components/FileUpload.tsx] *)
(* ===================================================================== *)

Module FileUpload.
Import Js.

Inductive UploadStatus := idle | uploading | success | error.

Record State := {
  status : UploadStatus;
  statusMessage : jsstring
}.

Definition allowedExtensions : list jsstring :=
  [js ".pdf"; js ".docx"; js ".doc"; js ".txt"].

(** The notices of the source, in Russian: unsupported format, the list of
    allowed ones, uploading. *)
Definition unsupportedPrefix : jsstring :=
  [1053; 1077; 1087; 1086; 1076; 1076; 1077; 1088; 1078; 1080; 1074; 1072;
   1077; 1084; 1099; 1081; 32; 1092; 1086; 1088; 1084; 1072; 1090; 58; 32].

Definition allowedSuffix : jsstring :=
  [46; 32; 1044; 1086; 1087; 1091; 1089; 1090; 1080; 1084; 1099; 1077; 58;
   32] ++ js "PDF, DOCX, DOC, TXT".

Definition uploadingPrefix : jsstring :=
  [1047; 1072; 1075; 1088; 1091; 1079; 1082; 1072; 58; 32].

(** [arr.includes(x)]. *)
Definition includes (arr : list jsstring) (x : jsstring) : bool :=
  existsb (jsstring_eqb x) arr.

Section Upload.

(** The case table of the platform for strings that are not ASCII. *)
Variable unicodeLower : jsstring -> jsstring.

(** ["." + file.name.split(".").pop()?.toLowerCase()]. *)
Definition extOf (name : jsstring) : jsstring :=
  js "." ++
  match last (split (js ".") name) with
  | Some popped => toLowerCase unicodeLower popped
  | None => js "undefined"
  end.

(** [handleUpload(file)] up to its [await]: the state it sets, and the
    name of the file it hands to [uploadFile], if it does. *)
Definition handleUpload (name : jsstring) : State * option jsstring :=
  let ext := extOf name in
  if negb (includes allowedExtensions ext) then
    ({| status := error;
        statusMessage := unsupportedPrefix ++ ext ++ allowedSuffix |}, None)
  else
    ({| status := uploading;
        statusMessage := uploadingPrefix ++ name ++ js "..." |}, Some name).

End Upload.

(** What [uploadFile] comes back with: the message of the result, or the
    text of what it throws. *)
Inductive Outcome :=
| Uploaded (message : jsstring)
| UploadFails (text : jsstring).

(** [handleUpload(file)] after its [await]. *)
Definition settle (o : Outcome) : State :=
  match o with
  | Uploaded message => {| status := success; statusMessage := message |}
  | UploadFails text => {| status := error; statusMessage := text |}
  end.

End FileUpload.

(* ===================================================================== *)
(** ** What [Chat] shows *)
(* ===================================================================== *)

Module View.
Import Js Client.

(** The [disabled] of the send button: [isLoading || !input.trim()]. *)
Definition submitDisabled (w : Chat.World) : bool :=
  Chat.isLoading w || App.isEmpty (trim (Chat.input w)).

End View.

(* ===================================================================== *)
(** ** Notions used in the statements, and sample inputs *)
(* ===================================================================== *)

Module Notions.
Import Js Client.

(** The complete frames of a text: the segments that a delimiter ends. *)
Definition framesOf (text : jsstring) : list jsstring :=
  removelast (split delimiter text).

(** A frame as [split] finds it: its first delimiter is the one that ends
    it. *)
Definition isFrame (line : jsstring) : Prop :=
  cut delimiter (line ++ delimiter) = Some (line, []).

(** A text that ends where a frame ends, or is empty. *)
Definition endsAtFrame (text : jsstring) : Prop :=
  pop_or_empty (split delimiter text) = [].

Definition recognizedTypes : list jsstring :=
  [js "token"; js "sources"; js "done"; js "error"].

(** A frame that is not a valid one: no [data: ] prefix after trimming, or
    a payload that is not JSON, or a [type] that is none of the four. *)
Definition malformed (line : jsstring) : Prop :=
  startsWith (trim line) dataPrefix = false
  \/ JSON_parse (slice 6 (trim line)) = None
  \/ exists event,
       JSON_parse (slice 6 (trim line)) = Some event
       /\ forall t, In t recognizedTypes ->
                    getProp event (js "type") <> Some (VString t).

(** [next] is [prev] but for its last element, and is [prev] when that
    one is not of the assistant. *)
Definition sameButLast (prev next : list ChatMessage) : Prop :=
  length next = length prev
  /\ (forall i : nat, (i + 1 < length prev)%nat -> next !! i = prev !! i)
  /\ (forall l, last prev = Some l -> role l <> assistant -> next = prev).

(** The component is shown for a session of the list, and every
    controller in use or aborted is one that was made. *)
Definition mounted (w : Chat.World) : Prop :=
  is_Some (App.messagesOf (Chat.chatId w) (App.chats (Chat.app w)))
  /\ (forall n : nat, n ∈ Chat.aborted w -> (n < Chat.controllers w)%nat)
  /\ (forall n : nat, Chat.requestControllerRef w = Some n ->
                      (n < Chat.controllers w)%nat).

(** The events of one stream with the ticks of the interval and the
    typing of the user in between. *)
Definition streamEvent (c : Chat.Controller) (e : Chat.Event) : Prop :=
  match e with
  | Chat.Token c' _ | Chat.Sources c' _ _ | Chat.Done c' => c' = c
  | Chat.Tick _ | Chat.Typing _ => True
  | _ => False
  end.

(** The text of the tokens of a trace, in the order of their arrival. *)
Definition tokensOf (trace : list Chat.Event) : jsstring :=
  flat_map (fun e => match e with Chat.Token _ token => token | _ => [] end)
           trace.

Definition isDone (e : Chat.Event) : bool :=
  match e with Chat.Done _ => true | _ => false end.

(** What holds of the world while the stream of [c] runs: the reply is the
    last message of its session, and what is shown of it followed by what
    is queued is the text received. *)
Definition streaming (c : Chat.Controller) (before : list ChatMessage)
  (received : jsstring) (done : bool) (w : Chat.World) : Prop :=
  exists reply : ChatMessage,
    App.messagesOf (Chat.boundTo c) (App.chats (Chat.app w))
    = Some (before ++ [reply])
    /\ role reply = assistant
    /\ content reply ++ Chat.tokenQueueRef w = received
    /\ Chat.streamDoneRef w = done
    /\ (Chat.typingTimerRef w = None
        \/ Chat.typingTimerRef w = Some (Chat.boundTo c))
    /\ (Chat.tokenQueueRef w <> [] ->
        Chat.typingTimerRef w = Some (Chat.boundTo c))
    /\ (done = true -> Chat.tokenQueueRef w = [] -> Chat.isLoading w = false)
    /\ Chat.ctrl c ∉ Chat.aborted w.

(** The extension of a file name in the usual sense of the word, which
    is the one of the specification: the text after the last dot of a
    name that has a dot; a name without a dot has none. *)
Definition extensionOf (name : jsstring) : option jsstring :=
  match split (js ".") name with
  | [] | [_] => None
  | segments => last segments
  end.

(** The extensions the specification allows, compared without regard to
    the case of ASCII letters. *)
Definition allowedExtension (e : jsstring) : bool :=
  existsb (jsstring_eqb (List.map asciiLower e))
          [js "pdf"; js "docx"; js "doc"; js "txt"].

(** The identifiers of the sessions are pairwise distinct. *)
Definition distinctIds (l : list App.ChatSession) : Prop :=
  NoDup (List.map App.id l).

End Notions.

Module Samples.
Import Js Client.

(** Wire text written with an apostrophe for the quote and a bar for the
    line feed. *)
Definition wireUnit (c : N) : N :=
  if c =? 39 then 34 else if c =? 124 then 10 else c.

Definition wireText (s : string) : jsstring := List.map wireUnit (js s).

Definition wire (s : string) : list byte :=
  List.map (fun c => default Byte.x00 (Byte.of_N c)) (wireText s).

(** The token frame of the specification, cut inside its payload. *)
Definition helloChunks : list (list byte) :=
  [wire "data: {'type':'token','content':'Hel"; wire "lo'}||"].

(** A comment frame between a token frame and the closing frame. *)
Definition heartbeat : jsstring := wireText ": keep-alive".

Definition beforeHeartbeat : jsstring :=
  wireText "data: {'type':'token','content':'Hi'}||".

Definition afterHeartbeat : jsstring :=
  wireText "data: {'type':'done'}||".

Definition heartbeatChunk : list byte :=
  wire "data: {'type':'token','content':'Hi'}||: keep-alive||data: {'type':'done'}||".

(** A world with one session, in which the user has typed a question. *)
Definition session1 : App.ChatSession :=
  App.createChatSession (js "c1") (js "2024-01-01T00:00:00.000Z").

Definition world0 : Chat.World :=
  {| Chat.app := {| App.chats := [session1]; App.activeChatId := js "c1" |};
     Chat.chatId := js "c1";
     Chat.input := js " Hi? ";
     Chat.isLoading := false;
     Chat.requestControllerRef := None;
     Chat.tokenQueueRef := [];
     Chat.streamDoneRef := false;
     Chat.typingTimerRef := None;
     Chat.aborted := ∅;
     Chat.controllers := 0 |}.

Definition t0 : jsstring := js "2024-01-01T00:00:01.000Z".

(** The world after the question is submitted, and the controller of its
    stream. *)
Definition world1 : Chat.World := fst (Chat.handleSubmit t0 world0).

Definition stream1 : Chat.Controller :=
  {| Chat.ctrl := 0; Chat.boundTo := js "c1" |}.

Definition request1 : Chat.Request :=
  {| Chat.question := js "Hi?"; Chat.chatHistory := [];
     Chat.controller := stream1 |}.

(** Two tokens, the end of the stream, and ticks in between. *)
Definition trace1 : list Chat.Event :=
  [Chat.Token stream1 (js "He"); Chat.Tick t0; Chat.Token stream1 (js "y");
   Chat.Done stream1; Chat.Tick t0; Chat.Tick t0].

(** A token and one tick: one character shown, one still queued. *)
Definition trace2 : list Chat.Event :=
  [Chat.Token stream1 (js "He"); Chat.Tick t0].

(** A token whose content is one Cyrillic letter of two bytes, the chunks
    cut between the two. *)
Definition letterChunks : list (list byte) :=
  [wire "data: {'type':'token','content':'" ++ [Byte.xd0];
   [Byte.x9e] ++ wire "'}||"].

(** A token and two ticks: all of it shown, the stream not at its end. *)
Definition trace3 : list Chat.Event :=
  [Chat.Token stream1 (js "He"); Chat.Tick t0; Chat.Tick t0].

(** The world with nothing typed, and the world while a reply loads. *)
Definition worldBlank : Chat.World := Chat.setInput (js "   ") world0.

Definition worldBusy : Chat.World :=
  Chat.setInput (js "again") (Chat.run world1 trace2).

(** The user opens a new session while the first reply is half shown;
    then the old stream goes on, and a question is asked in the new
    session. *)
Definition worldSwitched : Chat.World :=
  Chat.step (Chat.run world1 trace2) (Chat.NewChat (js "c2") t0).

Definition stream2 : Chat.Controller :=
  {| Chat.ctrl := 1; Chat.boundTo := js "c2" |}.

Definition trace4 : list Chat.Event :=
  [Chat.Token stream1 (js "llo"); Chat.Typing (js "next"); Chat.Submit t0;
   Chat.Sources stream1 t0 []; Chat.Token stream2 (js "ok");
   Chat.Error stream1 t0 (js "late"); Chat.Tick t0; Chat.Done stream1;
   Chat.Tick t0].

(** Two stored sessions with one identifier, and two with their own. *)
Definition twins : App.State :=
  {| App.chats := [App.createChatSession (js "x") t0;
                   App.createChatSession (js "x") t0];
     App.activeChatId := js "x" |}.

Definition pair : App.State :=
  {| App.chats := [App.createChatSession (js "x") t0;
                   App.createChatSession (js "y") t0];
     App.activeChatId := js "x" |}.

End Samples.

Module MoreNotions.
Import Js Client.

(** A response that is accepted and whose body is read as given. *)
Definition bodyOf (reads : list ReadResult) : FetchResult :=
  FetchResolves {| ok := true; status := 200; text := inr [];
                   body := Some reads |}.

(** The text the decoder makes of all the bytes of a body. *)
Definition textOf (chunks : list (list byte)) : jsstring :=
  snd (decode newTextDecoder (concat chunks)).

(** A valid frame and the typed event it carries, in the words of the
    specification: after trimming, the prefix [data: ] and then the JSON
    text of an object with a [type] and the content that goes with it, a
    string for [token] and [error], a sequence for [sources], none that
    matters for [done]. *)
Definition carries (line : jsstring) (call : Call) : Prop :=
  exists (json : jsstring) (event : JSValue),
    trim line = dataPrefix ++ json
    /\ JSON_parse json = Some event
    /\ ((exists text,
           getProp event (js "type") = Some (VString (js "token"))
           /\ getProp event (js "content") = Some (VString text)
           /\ call = onToken (VString text))
        \/ (exists items,
              getProp event (js "type") = Some (VString (js "sources"))
              /\ getProp event (js "content") = Some (VArray items)
              /\ call = onSources (VArray items))
        \/ (getProp event (js "type") = Some (VString (js "done"))
            /\ call = onDone)
        \/ (exists message,
              getProp event (js "type") = Some (VString (js "error"))
              /\ getProp event (js "content") = Some (VString message)
              /\ call = onError (VString message))).

(** A text of white space alone. *)
Definition blank (s : jsstring) : Prop := forallb isWhiteSpace s = true.

(** [Chat] is shown for the active session of [App]. *)
Definition shown (w : Chat.World) : Prop :=
  exists active, App.activeChat (Chat.app w) = Some active
                 /\ Chat.chatId w = App.id active.

(** The stream of [c] is the one in flight and has not ended. *)
Definition pending (c : Chat.Controller) (w : Chat.World) : Prop :=
  Chat.isLoading w = true
  /\ Chat.requestControllerRef w = Some (Chat.ctrl c)
  /\ Chat.streamDoneRef w = false
  /\ Chat.ctrl c ∉ Chat.aborted w.

(** The controller of the stream an event is a callback of. *)
Definition controllerOf (e : Chat.Event) : option Chat.Controller :=
  match e with
  | Chat.Token c _ | Chat.Sources c _ _ | Chat.Done c | Chat.Error c _ _ =>
      Some c
  | _ => None
  end.

(** The events in which the user changes the session shown, or the
    component is taken away. *)
Definition leavesSession (e : Chat.Event) : bool :=
  match e with
  | Chat.SelectChat _ | Chat.NewChat _ _ | Chat.RemoveChat _ _ _
  | Chat.Unmount => true
  | _ => false
  end.

End MoreNotions.

Module MoreSamples.
Import Js Client Samples.

(** A token frame, then the closing frame without the delimiter that
    would end it. *)
Definition unterminated : list (list byte) :=
  [wire "data: {'type':'token','content':'Hi'}||data: {'ty";
   wire "pe':'done'}"].


(** The token frame of the specification, whole. *)
Definition helloLine : jsstring :=
  wireText "data: {'type':'token','content':'Hello'}".

(** A token frame, a comment frame that ends the first chunk, and the
    closing frame in a second chunk. *)
Definition heartbeatChunks : list (list byte) :=
  [wire "data: {'type':'token','content':'Hi'}||: keep-alive||data: {'ty";
   wire "pe':'done'}||"].

Definition doneLine : jsstring := wireText "data: {'type':'done'}".

Definition paddedLine : jsstring :=
  wireText "| data: {'type':'done'} |".

(** Four characters queued for the reply of the first session. *)
Definition worldQueued : Chat.World :=
  Chat.step Samples.world1 (Chat.Token Samples.stream1 (js "abcd")).

End MoreSamples.

Module AppSamples.
Import Js Client Samples.

(** A question of several lines, longer than a title may be. *)
Definition longQuestion : ChatMessage :=
  {| role := user;
     content := wireText "  What does|the report say   about the third quarter of the year, in short?";
     sources := None |}.

(** Three sessions with their own identifiers, the second one active. *)
Definition three : App.State :=
  {| App.chats := [App.createChatSession (js "x") t0;
                   App.createChatSession (js "y") t0;
                   App.createChatSession (js "z") t0];
     App.activeChatId := js "y" |}.

(** The same sessions when the stored active identifier is of none. *)
Definition astray : App.State :=
  {| App.chats := App.chats three; App.activeChatId := js "gone" |}.

End AppSamples.

(* ===================================================================== *)
(** * Properties *)
(* ===================================================================== *)

(** ** [split] and the text that is cut into segments *)

Module JsFacts.
Import Js.

Lemma stripPrefix_spec (p s r : jsstring) :
  stripPrefix p s = Some r <-> s = p ++ r.
Proof.
  revert s. induction p as [|a p IH]; intros s; simpl.
  - split; [intros [= ->] | intros ->]; reflexivity.
  - destruct s as [|b s]; [split; discriminate|].
    destruct (N.eqb_spec a b) as [->|Hne].
    + rewrite IH. split; [intros -> | intros [= ->]]; reflexivity.
    + split; [discriminate | intros [= -> _]; contradiction].
Qed.

Lemma stripPrefix_app (p s r t : jsstring) :
  stripPrefix p s = Some r -> stripPrefix p (s ++ t) = Some (r ++ t).
Proof.
  rewrite !stripPrefix_spec. intros ->. now rewrite <- app_assoc.
Qed.

(** A text at least as long as the prefix decides by itself whether it
    starts with it. *)
Lemma stripPrefix_None_app (p s t : jsstring) :
  stripPrefix p s = None -> (length p <= length s)%nat ->
  stripPrefix p (s ++ t) = None.
Proof.
  revert s. induction p as [|a p IH]; intros s; simpl; [discriminate|].
  destruct s as [|b s]; simpl; [lia|].
  destruct (a =? b); [|reflexivity].
  intros H Hl. apply IH; [exact H | lia].
Qed.

Lemma cut_spec (sep s a b : jsstring) :
  cut sep s = Some (a, b) -> s = a ++ sep ++ b.
Proof.
  revert a. induction s as [|c s IH]; intros a; simpl.
  - destruct (stripPrefix sep []) eqn:E; [|discriminate].
    intros [= <- <-]. now apply stripPrefix_spec in E.
  - destruct (stripPrefix sep (c :: s)) eqn:E.
    + intros [= <- <-]. now apply stripPrefix_spec in E.
    + destruct (cut sep s) as [[a' b']|] eqn:E'; [|discriminate].
      intros [= <- <-]. simpl. f_equal. now apply IH.
Qed.

Lemma cut_length (sep s a b : jsstring) :
  cut sep s = Some (a, b) ->
  length s = (length a + length sep + length b)%nat.
Proof.
  intros H. apply cut_spec in H. subst s. rewrite !length_app. lia.
Qed.

(** The first occurrence of the separator stays the first one when text
    is added at the end. *)
Lemma cut_stripPrefix (sep s r : jsstring) :
  stripPrefix sep s = Some r -> cut sep s = Some ([], r).
Proof. intros E. destruct s; simpl; now rewrite E. Qed.

Lemma cut_app (sep s t a b : jsstring) :
  cut sep s = Some (a, b) -> cut sep (s ++ t) = Some (a, b ++ t).
Proof.
  revert a. induction s as [|c s IH]; intros a.
  - simpl. destruct (stripPrefix sep []) eqn:E; [|discriminate].
    intros [= <- <-].
    apply (cut_stripPrefix sep ([] ++ t)), stripPrefix_app, E.
  - simpl. destruct (stripPrefix sep (c :: s)) eqn:E.
    + intros [= <- <-].
      apply (cut_stripPrefix sep ((c :: s) ++ t)), stripPrefix_app, E.
    + destruct (cut sep s) as [[a' b']|] eqn:E'; [|discriminate].
      intros [= <- <-].
      change (c :: s ++ t) with ((c :: s) ++ t).
      rewrite stripPrefix_None_app; [| exact E |].
      * now rewrite (IH a' eq_refl).
      * apply cut_length in E'. simpl. lia.
Qed.

Lemma split_loop_enough (sep s : jsstring) (n : nat) :
  sep <> [] -> (length s <= n)%nat -> split_loop n sep s = split sep s.
Proof.
  intros Hsep. unfold split.
  remember (length s) as m eqn:Hm.
  revert s n Hm. induction m as [m IH] using lt_wf_ind. intros s n Hm Hn.
  assert (0 < length sep)%nat by (destruct sep; [contradiction | simpl; lia]).
  destruct n as [|n].
  - replace m with 0%nat by lia. reflexivity.
  - cbn [split_loop].
    destruct (cut sep s) as [[a b]|] eqn:E.
    + pose proof (cut_length _ _ _ _ E) as Hl.
      destruct m as [|m]; [lia|]. cbn [split_loop]. rewrite E. f_equal.
      rewrite (IH (length b)), <- (IH (length b) ltac:(lia) b m); auto; lia.
    + destruct m; cbn [split_loop]; [reflexivity | now rewrite E].
Qed.

Lemma split_cut_Some (sep s a b : jsstring) :
  sep <> [] -> cut sep s = Some (a, b) -> split sep s = a :: split sep b.
Proof.
  intros Hsep E. pose proof (cut_length _ _ _ _ E) as Hl.
  assert (0 < length sep)%nat by (destruct sep; [contradiction | simpl; lia]).
  unfold split at 1. destruct (length s) as [|n] eqn:Hn; [lia|].
  simpl. rewrite E. f_equal. apply split_loop_enough; [exact Hsep | lia].
Qed.

Lemma split_cut_None (sep s : jsstring) :
  cut sep s = None -> split sep s = [s].
Proof.
  intros E. unfold split. destruct (length s); simpl; [reflexivity|].
  now rewrite E.
Qed.

Lemma split_nonempty (sep s : jsstring) : split sep s <> [].
Proof.
  unfold split. destruct (length s); simpl; [discriminate|].
  destruct (cut sep s) as [[a b]|]; discriminate.
Qed.

Lemma pop_or_empty_cons (a : jsstring) (l : list jsstring) :
  l <> [] -> pop_or_empty (a :: l) = pop_or_empty l.
Proof. destruct l; [contradiction | reflexivity]. Qed.

Lemma removelast_cons (a : jsstring) (l : list jsstring) :
  l <> [] -> removelast (a :: l) = a :: removelast l.
Proof. destruct l; [contradiction | reflexivity]. Qed.

(** Splitting a text that grows: the complete segments found so far stay,
    and the rest is split again with what was added. *)
Lemma split_app (sep s t : jsstring) :
  sep <> [] ->
  split sep (s ++ t)
  = removelast (split sep s) ++ split sep (pop_or_empty (split sep s) ++ t).
Proof.
  intros Hsep. remember (length s) as m eqn:Hm.
  revert s Hm. induction m as [m IH] using lt_wf_ind. intros s Hm.
  destruct (cut sep s) as [[a b]|] eqn:E.
  - pose proof (cut_length _ _ _ _ E) as Hl.
    assert (0 < length sep)%nat by (destruct sep; [contradiction | simpl; lia]).
    rewrite (split_cut_Some _ _ _ _ Hsep (cut_app _ _ t _ _ E)).
    rewrite (split_cut_Some _ _ _ _ Hsep E).
    rewrite removelast_cons, pop_or_empty_cons by apply split_nonempty.
    simpl. f_equal. apply (IH (length b)); [lia | reflexivity].
  - rewrite (split_cut_None _ _ E). reflexivity.
Qed.

(** The segments put together again, each complete one followed by the
    separator, are the text; the last segment holds no separator. *)
Lemma split_join (sep s : jsstring) :
  sep <> [] ->
  s = flat_map (fun f => f ++ sep) (removelast (split sep s))
      ++ pop_or_empty (split sep s)
  /\ cut sep (pop_or_empty (split sep s)) = None.
Proof.
  intros Hsep. remember (length s) as m eqn:Hm.
  revert s Hm. induction m as [m IH] using lt_wf_ind. intros s Hm.
  destruct (cut sep s) as [[a b]|] eqn:E.
  - pose proof (cut_length _ _ _ _ E) as Hl.
    assert (0 < length sep)%nat by (destruct sep; [contradiction | simpl; lia]).
    rewrite (split_cut_Some _ _ _ _ Hsep E).
    rewrite removelast_cons, pop_or_empty_cons by apply split_nonempty.
    destruct (IH (length b) ltac:(lia) b eq_refl) as [Hb Hn].
    split; [|exact Hn].
    simpl. rewrite <- !app_assoc, <- Hb. now apply cut_spec.
  - rewrite (split_cut_None _ _ E). split; [reflexivity | exact E].
Qed.

(** *** The bound on the calls of the JSON parser is never the reason
    for a text to be rejected *)

Lemma skipSpace_length (s : jsstring) :
  (length (skipSpace s) <= length s)%nat.
Proof.
  induction s as [|c s IH]; simpl; [lia|].
  destruct (isJsonSpace c); simpl; lia.
Qed.

Lemma skipSpace_cons (s r : jsstring) (c : N) :
  skipSpace s = c :: r -> (length r < length s)%nat.
Proof.
  intros H. pose proof (skipSpace_length s) as Hl.
  rewrite H in Hl. simpl in Hl. lia.
Qed.

Lemma stripPrefix_length (p s r : jsstring) :
  stripPrefix p s = Some r -> (length r <= length s)%nat.
Proof.
  intros H. apply stripPrefix_spec in H. subst s. rewrite length_app. lia.
Qed.

Lemma parseChars_length (s acc str r : jsstring) :
  parseChars s acc = Some (str, r) -> (length r < length s)%nat.
Proof.
  remember (length s) as m eqn:Hm.
  revert s acc Hm. induction m as [m IH] using lt_wf_ind. intros s acc Hm.
  destruct s as [|c s]; [discriminate|]. simpl in *.
  destruct (c =? 34); [intros [= <- <-]; lia|].
  destruct (c =? 92).
  - destruct s as [|e s]; [discriminate|].
    destruct (e =? 117).
    + destruct s as [|h1 [|h2 [|h3 [|h4 s]]]]; try discriminate.
      destruct (hexValue h1), (hexValue h2), (hexValue h3), (hexValue h4);
        try discriminate.
      intros H. apply (IH (length s)) in H; simpl in *; lia.
    + destruct (simpleEscape e); [|discriminate].
      intros H. apply (IH (length s)) in H; simpl in *; lia.
  - destruct (c <? 32); [discriminate|].
    intros H. apply (IH (length s)) in H; lia.
Qed.

Lemma spanDigits_length (s : jsstring) :
  (length (snd (spanDigits s)) <= length s)%nat.
Proof.
  induction s as [|c s IH]; simpl; [lia|].
  destruct (isDigit c); simpl; [|lia].
  destruct (spanDigits s). simpl in *. lia.
Qed.

Lemma parseNumber_length (s r : jsstring) (v : JSValue) :
  parseNumber s = Some (v, r) -> (length r <= length s)%nat.
Proof.
  unfold parseNumber.
  set (p := match s with
            | c :: r0 => if c =? 45 then (true, r0) else (false, s)
            | [] => (false, s)
            end).
  assert (length (snd p) <= length s)%nat as Hp.
  { subst p. destruct s as [|c s]; simpl; [lia|].
    destruct (c =? 45); simpl; lia. }
  destruct p as [neg s1]. simpl in Hp.
  destruct (parseInt s1) as [[ip s2]|] eqn:Ei; [|discriminate].
  assert (length s2 <= length s1)%nat as H2.
  { unfold parseInt in Ei. destruct s1 as [|c s1]; [discriminate|].
    destruct (c =? 48); [injection Ei as <- <-; simpl; lia|].
    destruct (isDigit c); [|discriminate].
    pose proof (spanDigits_length (c :: s1)) as Hs.
    destruct (spanDigits (c :: s1)). injection Ei as <- <-. exact Hs. }
  destruct (parseFrac s2) as [[fp s3]|] eqn:Ef; [|discriminate].
  assert (length s3 <= length s2)%nat as H3.
  { unfold parseFrac in Ef. destruct s2 as [|c s2]; [injection Ef as <- <-; lia|].
    destruct (c =? 46); [|injection Ef as <- <-; lia].
    pose proof (spanDigits_length s2) as Hs.
    destruct (spanDigits s2) as [[|d ds] rest]; [discriminate|].
    injection Ef as <- <-. simpl in *. lia. }
  destruct (parseExp s3) as [[e s4]|] eqn:Ee; [|discriminate].
  assert (length s4 <= length s3)%nat as H4.
  { unfold parseExp in Ee. destruct s3 as [|c s3]; [injection Ee as <- <-; lia|].
    destruct ((c =? 101) || (c =? 69)); [|injection Ee as <- <-; lia].
    set (q := match s3 with
              | sg :: r' =>
                  if sg =? 45 then (true, r')
                  else if sg =? 43 then (false, r') else (false, s3)
              | [] => (false, s3)
              end) in Ee.
    assert (length (snd q) <= length s3)%nat as Hq.
    { subst q. destruct s3 as [|sg s3]; simpl; [lia|].
      destruct (sg =? 45); simpl; [lia|]. destruct (sg =? 43); simpl; lia. }
    destruct q as [neg' r1]. simpl in Hq.
    pose proof (spanDigits_length r1) as Hs.
    destruct (spanDigits r1) as [[|d ds] rest]; [discriminate|].
    injection Ee as <- <-. simpl in *. lia. }
  intros [= <- <-]. lia.
Qed.

Lemma parseLiteral_length (s r : jsstring) (v : JSValue) :
  parseLiteral s = Some (v, r) -> (length r <= length s)%nat.
Proof.
  unfold parseLiteral.
  destruct (stripPrefix (js "true") s) eqn:E1;
    [intros [= <- <-]; now apply stripPrefix_length in E1|].
  destruct (stripPrefix (js "false") s) eqn:E2;
    [intros [= <- <-]; now apply stripPrefix_length in E2|].
  destruct (stripPrefix (js "null") s) eqn:E3;
    [intros [= <- <-]; now apply stripPrefix_length in E3|].
  apply parseNumber_length.
Qed.

(** What a parser leaves is no longer than what it was given. *)
Lemma parse_length (n : nat) :
  (forall s v r, parseValue n s = Some (v, r) ->
                 (length r <= length s)%nat)
  /\ (forall s acc v r, parseElements n s acc = Some (v, r) ->
                        (length r <= length s)%nat)
  /\ (forall s acc v r, parseMembers n s acc = Some (v, r) ->
                        (length r <= length s)%nat).
Proof.
  induction n as [|n (IHv & IHe & IHm)]; [split_and!; discriminate|].
  split_and!.
  - intros s v r. simpl.
    destruct (skipSpace s) as [|c s1] eqn:Es; [discriminate|].
    apply skipSpace_cons in Es.
    destruct (c =? 123).
    { destruct (skipSpace s1) as [|c' s2] eqn:Es1; [discriminate|].
      apply skipSpace_cons in Es1.
      destruct (c' =? 125); [intros [= <- <-]; lia|].
      intros H. apply IHm in H. lia. }
    destruct (c =? 91).
    { destruct (skipSpace s1) as [|c' s2] eqn:Es1; [discriminate|].
      apply skipSpace_cons in Es1.
      destruct (c' =? 93); [intros [= <- <-]; lia|].
      intros H. apply IHe in H. lia. }
    destruct (c =? 34).
    { destruct (parseChars s1 []) as [[str r']|] eqn:Ec; [|discriminate].
      apply parseChars_length in Ec. intros [= <- <-]. lia. }
    intros H. apply parseLiteral_length in H. simpl in H. lia.
  - intros s acc v r. simpl.
    destruct (parseValue n s) as [[v1 r1]|] eqn:Ev; [|discriminate].
    apply IHv in Ev.
    destruct (skipSpace r1) as [|c r2] eqn:Es; [discriminate|].
    apply skipSpace_cons in Es.
    destruct (c =? 44); [intros H; apply IHe in H; lia|].
    destruct (c =? 93); [intros [= <- <-]; lia | discriminate].
  - intros s acc v r. simpl.
    destruct (skipSpace s) as [|c s1] eqn:Es; [discriminate|].
    apply skipSpace_cons in Es.
    destruct (c =? 34); [|discriminate].
    destruct (parseChars s1 []) as [[k r1]|] eqn:Ec; [|discriminate].
    apply parseChars_length in Ec.
    destruct (skipSpace r1) as [|c1 r2] eqn:Es1; [discriminate|].
    apply skipSpace_cons in Es1.
    destruct (c1 =? 58); [|discriminate].
    destruct (parseValue n r2) as [[v1 r3]|] eqn:Ev; [|discriminate].
    apply IHv in Ev.
    destruct (skipSpace r3) as [|c3 r4] eqn:Es3; [discriminate|].
    apply skipSpace_cons in Es3.
    destruct (c3 =? 44); [intros H; apply IHm in H; lia|].
    destruct (c3 =? 125); [intros [= <- <-]; lia | discriminate].
Qed.

(** With two calls for each code unit, more calls change nothing. *)
Lemma parse_fuel (n : nat) :
  (forall m s, (2 * length s + 1 <= n)%nat -> (n <= m)%nat ->
               parseValue m s = parseValue n s)
  /\ (forall m s acc, (2 * length s + 2 <= n)%nat -> (n <= m)%nat ->
                      parseElements m s acc = parseElements n s acc)
  /\ (forall m s acc, (2 * length s + 2 <= n)%nat -> (n <= m)%nat ->
                      parseMembers m s acc = parseMembers n s acc).
Proof.
  induction n as [|n (IHv & IHe & IHm)]; [split_and!; intros; lia|].
  destruct (parse_length n) as (Lv & _ & _).
  split_and!.
  - intros [|m] s Hn Hm; [lia|]. simpl.
    destruct (skipSpace s) as [|c s1] eqn:Es; [reflexivity|].
    apply skipSpace_cons in Es.
    destruct (c =? 123).
    { destruct (skipSpace s1) as [|c' s2] eqn:Es1; [reflexivity|].
      destruct (c' =? 125); [reflexivity|]. apply IHm; lia. }
    destruct (c =? 91); [|reflexivity].
    destruct (skipSpace s1) as [|c' s2] eqn:Es1; [reflexivity|].
    destruct (c' =? 93); [reflexivity|]. apply IHe; lia.
  - intros [|m] s acc Hn Hm; [lia|]. simpl.
    rewrite (IHv m s) by lia.
    destruct (parseValue n s) as [[v1 r1]|] eqn:Ev; [|reflexivity].
    apply Lv in Ev.
    destruct (skipSpace r1) as [|c r2] eqn:Es; [reflexivity|].
    apply skipSpace_cons in Es.
    destruct (c =? 44); [|reflexivity]. apply IHe; lia.
  - intros [|m] s acc Hn Hm; [lia|]. simpl.
    destruct (skipSpace s) as [|c s1] eqn:Es; [reflexivity|].
    apply skipSpace_cons in Es.
    destruct (c =? 34); [|reflexivity].
    destruct (parseChars s1 []) as [[k r1]|] eqn:Ec; [|reflexivity].
    apply parseChars_length in Ec.
    destruct (skipSpace r1) as [|c1 r2] eqn:Es1; [reflexivity|].
    apply skipSpace_cons in Es1.
    destruct (c1 =? 58); [|reflexivity].
    rewrite (IHv m r2) by lia.
    destruct (parseValue n r2) as [[v1 r3]|] eqn:Ev; [|reflexivity].
    apply Lv in Ev.
    destruct (skipSpace r3) as [|c3 r4] eqn:Es3; [reflexivity|].
    apply skipSpace_cons in Es3.
    destruct (c3 =? 44); [|reflexivity]. apply IHm; lia.
Qed.

(** [JSON_parse] with any larger bound gives the same result. *)
Lemma JSON_parse_fuel (text : jsstring) (m : nat) :
  (2 * length text + 2 <= m)%nat ->
  parseValue m text = parseValue (2 * length text + 2) text.
Proof.
  intros H. apply (proj1 (parse_fuel (2 * length text + 2))); lia.
Qed.

End JsFacts.

(** ** The frame decoder of [streamChat] *)

Module ClientFacts.
Import Js Client JsFacts.

Lemma delimiter_nonempty : delimiter <> [].
Proof. discriminate. Qed.

(** The streaming decoder reads byte by byte: where a chunk ends does not
    matter to the text that comes out. *)
Lemma decode_app (td : TextDecoder) (a b : list byte) :
  decode td (a ++ b)
  = let '(td1, s1) := decode td a in
    let '(td2, s2) := decode td1 b in (td2, s1 ++ s2).
Proof.
  revert td. induction a as [|x a IH]; intros td; simpl.
  - now destruct (decode td b).
  - destruct (decodeByte td x) as [td1 s1]. rewrite IH.
    destruct (decode td1 a) as [td2 s2], (decode td2 b) as [td3 s3].
    now rewrite app_assoc.
Qed.

(** Two chunks read one after the other, or read as one. *)
Lemma readChunk_app (st : LoopState) (a b : list byte) :
  readChunk st (a ++ b)
  = let '(st1, calls1) := readChunk st a in
    let '(st2, calls2) := readChunk st1 b in (st2, calls1 ++ calls2).
Proof.
  unfold readChunk. rewrite decode_app.
  destruct (decode (decoder st) a) as [td1 s1]. simpl.
  destruct (decode td1 b) as [td2 s2].
  rewrite app_assoc, (split_app _ _ _ delimiter_nonempty).
  set (l1 := split delimiter (buffer st ++ s1)).
  set (l2 := split delimiter (pop_or_empty l1 ++ s2)).
  assert (l2 <> []) as Hl2 by apply split_nonempty.
  f_equal.
  - f_equal. unfold pop_or_empty. rewrite last_app.
    destruct (last l2) eqn:E; [reflexivity|].
    apply last_None in E. contradiction.
  - rewrite removelast_app by exact Hl2. apply flat_map_app.
Qed.

Lemma readChunk_nil (st : LoopState) :
  cut delimiter (buffer st) = None -> readChunk st [] = (st, []).
Proof.
  intros E. unfold readChunk. simpl. rewrite app_nil_r.
  rewrite (split_cut_None _ _ E). destruct st; reflexivity.
Qed.

(** The buffer a round leaves holds no delimiter. *)
Lemma readChunk_buffer (st : LoopState) (value : list byte) :
  cut delimiter (buffer (fst (readChunk st value))) = None.
Proof.
  unfold readChunk. destruct (decode (decoder st) value) as [td s]. simpl.
  apply split_join, delimiter_nonempty.
Qed.

Lemma readChunks_concat (st : LoopState) (chunks : list (list byte)) :
  cut delimiter (buffer st) = None ->
  readChunk st (concat chunks)
  = (fst (readChunks st chunks), concat (snd (readChunks st chunks))).
Proof.
  revert st. induction chunks as [|value rest IH]; intros st Hst.
  - simpl. now apply readChunk_nil.
  - simpl. rewrite readChunk_app.
    pose proof (readChunk_buffer st value) as Hb.
    destruct (readChunk st value) as [st1 calls1]. simpl in Hb.
    rewrite (IH st1 Hb).
    destruct (readChunks st1 rest) as [st2 more]. reflexivity.
Qed.

Lemma readLoop_chunks (st : LoopState) (chunks : list (list byte)) :
  readLoop st (List.map ReadChunk chunks)
  = (concat (snd (readChunks st chunks)), None).
Proof.
  revert st. induction chunks as [|value rest IH]; intros st; simpl.
  - reflexivity.
  - destruct (readChunk st value) as [st1 calls]. rewrite IH.
    destruct (readChunks st1 rest) as [st2 more]. reflexivity.
Qed.

End ClientFacts.

(** ** C1 and C4: the frames of a stream and the calls they cause *)

Module DecoderTheorems.
Import Js Client JsFacts ClientFacts Notions Samples MoreNotions MoreSamples.

Lemma cut_frame (sep a b : jsstring) :
  cut sep (a ++ sep ++ b) = Some (a, b) -> cut sep (a ++ sep) = Some (a, []).
Proof.
  induction a as [|c a IH].
  - intros _. apply cut_stripPrefix, stripPrefix_spec. simpl.
    now rewrite app_nil_r.
  - cbn [app cut].
    destruct (stripPrefix sep (c :: a ++ sep ++ b)) eqn:E; [discriminate|].
    destruct (stripPrefix sep (c :: a ++ sep)) eqn:E'.
    + apply (stripPrefix_app _ _ _ b) in E'.
      change ((c :: a ++ sep) ++ b) with (c :: (a ++ sep) ++ b) in E'.
      rewrite <- app_assoc in E'. congruence.
    + destruct (cut sep (a ++ sep ++ b)) as [[a' b']|] eqn:Ec; [|discriminate].
      intros [= -> ->]. now rewrite IH.
Qed.

(** Every complete segment that [split] finds is cut at its first
    separator. *)
Lemma split_frames (sep s : jsstring) :
  sep <> [] ->
  Forall (fun f => cut sep (f ++ sep) = Some (f, []))
         (removelast (split sep s)).
Proof.
  intros Hsep. remember (length s) as m eqn:Hm.
  revert s Hm. induction m as [m IH] using lt_wf_ind. intros s Hm.
  destruct (cut sep s) as [[a b]|] eqn:E.
  - pose proof (cut_length _ _ _ _ E) as Hl.
    assert (0 < length sep)%nat by (destruct sep; [contradiction | simpl; lia]).
    rewrite (split_cut_Some _ _ _ _ Hsep E).
    rewrite removelast_cons by apply split_nonempty.
    constructor.
    + apply (cut_frame sep a b). pose proof (cut_spec _ _ _ _ E) as Hs.
      now rewrite <- Hs.
    + apply (IH (length b)); [lia | reflexivity].
  - rewrite (split_cut_None _ _ E). constructor.
Qed.

Lemma streamChat_streamOf (chunks : list (list byte)) :
  streamChat (streamOf chunks) = snd (readChunk loopStart (concat chunks)).
Proof.
  unfold streamChat, streamOf. simpl.
  rewrite readLoop_chunks, readChunks_concat by reflexivity.
  simpl. now rewrite app_nil_r.
Qed.

(** The calls of a stream are those of the complete frames of its
    text, in their order. *)
Lemma streamChat_frames (chunks : list (list byte)) :
  streamChat (streamOf chunks) = flat_map handleLine (framesOf (textOf chunks)).
Proof.
  rewrite streamChat_streamOf. unfold readChunk, textOf, loopStart. simpl.
  now destruct (decode newTextDecoder (concat chunks)).
Qed.

Lemma streamChat_rounds (chunks : list (list byte)) :
  streamChat (streamOf chunks) = concat (snd (readChunks loopStart chunks)).
Proof.
  unfold streamChat, streamOf. simpl. rewrite readLoop_chunks. simpl.
  now rewrite app_nil_r.
Qed.

Lemma isString_refl (s : jsstring) : isString (VString s) s = true.
Proof. unfold isString, jsstring_eqb. now apply bool_decide_eq_true. Qed.

(** The read loop of a body of chunks makes the calls of the complete
    frames of its text and ends without an exception. *)
Lemma readLoop_frames (chunks : list (list byte)) :
  readLoop loopStart (List.map ReadChunk chunks)
  = (flat_map handleLine (framesOf (textOf chunks)), None).
Proof.
  rewrite readLoop_chunks, <- streamChat_rounds. f_equal.
  apply streamChat_frames.
Qed.

(** A valid frame causes the call of the event it carries, and no
    other. *)
Lemma handleLine_carries (line : jsstring) (call : Call) :
  carries line call -> handleLine line = [call].
Proof.
  intros (json & event & Htrim & Hparse & H). unfold handleLine.
  rewrite Htrim.
  assert (startsWith (dataPrefix ++ json) dataPrefix = true) as ->.
  { unfold startsWith.
    now rewrite (proj2 (stripPrefix_spec dataPrefix _ json) eq_refl). }
  change (slice 6 (dataPrefix ++ json)) with json.
  cbn [negb]. rewrite Hparse. cbn [mbind option_bind]. unfold dispatch.
  destruct H as [(text & Ht & Hc & ->) | [(items & Ht & Hc & ->)
                  | [(Ht & ->) | (message & Ht & Hc & ->)]]];
    rewrite Ht; cbn [mbind option_bind]; rewrite ?isString_refl.
  - now rewrite Hc.
  - change (isString (VString (js "sources")) (js "token")) with false.
    cbn iota. now rewrite Hc.
  - reflexivity.
  - change (isString (VString (js "error")) (js "token")) with false.
    change (isString (VString (js "error")) (js "sources")) with false.
    change (isString (VString (js "error")) (js "done")) with false.
    cbn iota. now rewrite Hc.
Qed.

(** Two rounds, the first of which finds no delimiter. *)
Lemma readChunks_two (st : LoopState) (c1 c2 : list byte) :
  cut delimiter (buffer st ++ snd (decode (decoder st) c1)) = None ->
  snd (readChunks st [c1; c2])
  = [[]; flat_map handleLine
           (framesOf (buffer st ++ snd (decode (decoder st) c1)
                      ++ snd (decode (fst (decode (decoder st) c1)) c2)))].
Proof.
  intros E. cbn [readChunks]. unfold readChunk at 1.
  destruct (decode (decoder st) c1) as [td1 t1]. cbn [fst snd] in *.
  rewrite (split_cut_None _ _ E). cbn [removelast flat_map pop_or_empty last
    default]. unfold readChunk. cbn [decoder buffer].
  destruct (decode td1 c2) as [td2 t2]. cbn [fst snd].
  unfold framesOf. now rewrite app_assoc.
Qed.

(** C1. The calls [streamChat] makes are the typed events of the complete
    frames of the text of its body, in their order: a valid frame causes
    the call of the event it carries, and the calls of a stream are those
    of its frames, whatever the chunks the transport cuts the bytes into.
    Round by round: each round appends the decoded text to the buffer,
    makes the calls of the complete frames of the buffer in their order
    and keeps the text after the last delimiter; a round whose buffer
    holds no delimiter yet makes no call and keeps it all, and the frame
    it holds a part of causes its call in the round that completes the
    delimiter. *)
Theorem chunk_boundary_independence :
  (forall chunks1 chunks2 : list (list byte),
     concat chunks1 = concat chunks2 ->
     streamChat (streamOf chunks1) = streamChat (streamOf chunks2))
  /\ (forall chunks : list (list byte),
        streamChat (streamOf chunks)
        = flat_map handleLine (framesOf (textOf chunks))
        /\ streamChat (streamOf chunks)
           = concat (snd (readChunks loopStart chunks)))
  /\ (forall (line : jsstring) (call : Call),
        carries line call -> handleLine line = [call])
  /\ (forall (st : LoopState) (value : list byte),
        exists frames : list jsstring,
          buffer st ++ snd (decode (decoder st) value)
          = flat_map (fun f => f ++ delimiter) frames
            ++ buffer (fst (readChunk st value))
          /\ Forall isFrame frames
          /\ cut delimiter (buffer (fst (readChunk st value))) = None
          /\ snd (readChunk st value) = flat_map handleLine frames)
  /\ (forall (st : LoopState) (value : list byte),
        cut delimiter (buffer st ++ snd (decode (decoder st) value)) = None ->
        snd (readChunk st value) = []
        /\ buffer (fst (readChunk st value))
           = buffer st ++ snd (decode (decoder st) value))
  /\ (forall (st : LoopState) (c1 c2 : list byte),
        cut delimiter (buffer st ++ snd (decode (decoder st) c1)) = None ->
        snd (readChunks st [c1; c2])
        = [[]; flat_map handleLine
                 (framesOf (buffer st ++ snd (decode (decoder st) c1)
                            ++ snd (decode (fst (decode (decoder st) c1))
                                      c2)))]).
Proof.
  split_and!.
  - intros chunks1 chunks2 H. now rewrite !streamChat_streamOf, H.
  - intros chunks. split; [apply streamChat_frames | apply streamChat_rounds].
  - exact handleLine_carries.
  - intros st value. unfold readChunk.
    destruct (decode (decoder st) value) as [td text]. simpl.
    exists (removelast (split delimiter (buffer st ++ text))).
    destruct (split_join delimiter (buffer st ++ text) delimiter_nonempty)
      as [Hjoin Hrest].
    repeat split; try assumption.
    apply split_frames, delimiter_nonempty.
  - intros st value. unfold readChunk.
    destruct (decode (decoder st) value) as [td text]. simpl.
    intros E. now rewrite (split_cut_None _ _ E).
  - exact readChunks_two.
Qed.

Lemma carries_helloLine : carries helloLine (onToken (VString (js "Hello"))).
Proof.
  exists (wireText "{'type':'token','content':'Hello'}").
  eexists. split; [vm_compute; reflexivity|].
  split; [vm_compute; reflexivity|].
  left. exists (js "Hello"). repeat split.
Qed.

(** The frame of the specification in two chunks: no call after the
    first, the token after the second, and the same calls as for the
    bytes in one chunk. *)
Lemma chunk_boundary_independence_witness :
  snd (readChunks loopStart helloChunks)
  = [[]; [onToken (VString (js "Hello"))]]
  /\ streamChat (streamOf helloChunks) = [onToken (VString (js "Hello"))]
  /\ streamChat (streamOf [concat helloChunks])
     = [onToken (VString (js "Hello"))].
Proof.
  destruct chunk_boundary_independence as (H1 & H2 & H3 & _ & _ & H6).
  assert (snd (readChunks loopStart helloChunks)
          = [[]; [onToken (VString (js "Hello"))]]) as Hr.
  { unfold helloChunks. rewrite H6 by (vm_compute; reflexivity).
    rewrite <- (H3 helloLine _ carries_helloLine).
    vm_compute. reflexivity. }
  assert (streamChat (streamOf helloChunks)
          = [onToken (VString (js "Hello"))]) as Hs.
  { rewrite (proj2 (H2 helloChunks)), Hr. reflexivity. }
  split_and!; [exact Hr | exact Hs |].
  rewrite <- (H1 helloChunks [concat helloChunks]); [exact Hs|].
  vm_compute. reflexivity.
Defined.

(** A letter of two bytes cut between two chunks comes out whole. *)
Example letter_in_two_chunks :
  snd (readChunks loopStart letterChunks) = [[]; [onToken (VString [1054])]].
Proof. vm_compute. reflexivity. Qed.

(** The scenario of the specification: nothing after the first chunk, the
    token after the second. *)
Example hello_in_two_chunks :
  snd (readChunks loopStart helloChunks)
  = [[]; [onToken (VString (js "Hello"))]].
Proof. vm_compute. reflexivity. Qed.

Lemma isString_true (value : JSValue) (t : jsstring) :
  isString value t = true -> value = VString t.
Proof.
  destruct value; simpl; try discriminate.
  unfold jsstring_eqb. intros H. apply bool_decide_eq_true in H. now subst.
Qed.

Lemma dispatch_unrecognized (event : JSValue) :
  (forall t, In t recognizedTypes ->
             getProp event (js "type") <> Some (VString t)) ->
  dispatch event = None \/ dispatch event = Some [].
Proof.
  intros H. unfold dispatch.
  destruct (getProp event (js "type")) as [type|] eqn:E; [|now left].
  right. simpl.
  assert (forall t, In t recognizedTypes -> isString type t = false) as Hno.
  { intros t Ht. destruct (isString type t) eqn:Et; [|reflexivity].
    apply isString_true in Et. subst type. now destruct (H t Ht). }
  rewrite !Hno; [reflexivity | | | |]; unfold recognizedTypes; simpl; tauto.
Qed.

Lemma handleLine_malformed (line : jsstring) :
  malformed line -> handleLine line = [].
Proof.
  unfold handleLine. intros [H | [H | (event & H & Hty)]].
  - now rewrite H.
  - rewrite H. now destruct (startsWith (trim line) dataPrefix).
  - rewrite H. destruct (startsWith (trim line) dataPrefix); [|reflexivity].
    simpl. now destruct (dispatch_unrecognized event Hty) as [-> | ->].
Qed.

Lemma framesOf_app (pre rest : jsstring) :
  endsAtFrame pre -> framesOf (pre ++ rest) = framesOf pre ++ framesOf rest.
Proof.
  unfold endsAtFrame, framesOf. intros H.
  rewrite (split_app _ _ _ delimiter_nonempty), H. simpl.
  apply removelast_app, split_nonempty.
Qed.

Lemma framesOf_frame (line rest : jsstring) :
  isFrame line -> framesOf (line ++ delimiter ++ rest) = line :: framesOf rest.
Proof.
  unfold isFrame, framesOf. intros H.
  apply (cut_app _ _ rest) in H. rewrite <- app_assoc in H.
  rewrite (split_cut_Some _ _ _ _ delimiter_nonempty H).
  apply removelast_cons, split_nonempty.
Qed.

(** C4. A frame without the [data: ] prefix, with a payload that is not
    JSON, or with a type that is none of [token], [sources], [done] and
    [error] causes no call, [onError] included, and the stream goes on:
    the read loop of a stream that holds it ends without an exception,
    and the calls of the stream are those of the frames before it
    followed by those of the frames after it, in whatever chunks and
    rounds these come; a valid frame that follows it causes the call of
    the event it carries. The same holds of the round that reads it, and
    no body of chunks ends the read loop with an exception. *)
Theorem malformed_frame_dropped (line : jsstring) :
  malformed line ->
  handleLine line = []
  /\ (forall (chunks : list (list byte)) (pre post : jsstring),
        textOf chunks = pre ++ line ++ delimiter ++ post ->
        endsAtFrame pre -> isFrame line ->
        readLoop loopStart (List.map ReadChunk chunks)
        = (flat_map handleLine (framesOf pre)
           ++ flat_map handleLine (framesOf post), None)
        /\ streamChat (streamOf chunks)
           = flat_map handleLine (framesOf pre)
             ++ flat_map handleLine (framesOf post))
  /\ (forall (chunks : list (list byte)) (pre next post : jsstring)
             (call : Call),
        textOf chunks
        = pre ++ line ++ delimiter ++ next ++ delimiter ++ post ->
        endsAtFrame pre -> isFrame line -> isFrame next ->
        carries next call ->
        streamChat (streamOf chunks)
        = flat_map handleLine (framesOf pre)
          ++ call :: flat_map handleLine (framesOf post))
  /\ (forall (st : LoopState) (value : list byte) (pre post : jsstring),
        buffer st ++ snd (decode (decoder st) value)
        = pre ++ line ++ delimiter ++ post ->
        endsAtFrame pre -> isFrame line ->
        snd (readChunk st value)
        = flat_map handleLine (framesOf pre)
          ++ flat_map handleLine (framesOf post))
  /\ (forall (st : LoopState) (chunks : list (list byte)),
        snd (readLoop st (List.map ReadChunk chunks)) = None).
Proof.
  intros Hbad. pose proof (handleLine_malformed line Hbad) as Hnil.
  split_and!.
  - exact Hnil.
  - intros chunks pre post Htext Hpre Hline.
    rewrite readLoop_frames, streamChat_frames, Htext.
    rewrite (framesOf_app _ _ Hpre), (framesOf_frame _ _ Hline).
    rewrite flat_map_app. simpl. now rewrite Hnil.
  - intros chunks pre next post call Htext Hpre Hline Hnext Hcall.
    rewrite streamChat_frames, Htext.
    rewrite (framesOf_app _ _ Hpre), (framesOf_frame _ _ Hline),
      (framesOf_frame _ _ Hnext).
    rewrite flat_map_app. simpl.
    now rewrite Hnil, (handleLine_carries _ _ Hcall).
  - intros st value pre post Htext Hpre Hline. unfold readChunk.
    destruct (decode (decoder st) value) as [td text].
    cbn [fst snd buffer] in *.
    rewrite Htext. fold (framesOf (pre ++ line ++ delimiter ++ post)).
    rewrite (framesOf_app _ _ Hpre), (framesOf_frame _ _ Hline).
    rewrite flat_map_app. simpl. now rewrite Hnil.
  - intros st chunks. now rewrite readLoop_chunks.
Qed.

Lemma carries_doneLine : carries doneLine onDone.
Proof.
  exists (wireText "{'type':'done'}").
  eexists. split; [vm_compute; reflexivity|].
  split; [vm_compute; reflexivity|].
  right; right; left. split; reflexivity.
Qed.

(** A comment frame between a token frame and the closing frame, which
    comes in the next chunk: the comment causes no call, the token before
    it and the end after it cause theirs. *)
Lemma malformed_frame_dropped_witness :
  malformed heartbeat
  /\ handleLine heartbeat = []
  /\ streamChat (streamOf heartbeatChunks)
     = [onToken (VString (js "Hi")); onDone].
Proof.
  assert (malformed heartbeat) as H by (left; vm_compute; reflexivity).
  destruct (malformed_frame_dropped heartbeat H) as (H1 & _ & H3 & _).
  split; [exact H|]. split; [exact H1|].
  rewrite (H3 heartbeatChunks beforeHeartbeat doneLine [] onDone).
  - vm_compute. reflexivity.
  - vm_compute. reflexivity.
  - vm_compute. reflexivity.
  - vm_compute. reflexivity.
  - vm_compute. reflexivity.
  - exact carries_doneLine.
Defined.

Example heartbeat_stream :
  streamChat (streamOf [heartbeatChunk])
  = [onToken (VString (js "Hi")); onDone].
Proof. vm_compute. reflexivity. Qed.

(** Payloads that are not JSON, and types that are not known. *)
Example malformed_samples :
  malformed (wireText "data: {'type':'token',")
  /\ malformed (wireText "data: {'type':'ping'}")
  /\ malformed (wireText "data: null")
  /\ malformed (wireText "event: token").
Proof.
  repeat split.
  - right; left. vm_compute. reflexivity.
  - right; right. eexists. split; [vm_compute; reflexivity|].
    intros t Ht. simpl in Ht.
    destruct Ht as [<- | [<- | [<- | [<- | []]]]]; vm_compute; discriminate.
  - right; right. eexists. split; [vm_compute; reflexivity|].
    intros t Ht. vm_compute. discriminate.
  - left. vm_compute. reflexivity.
Qed.

End DecoderTheorems.

(** ** C9: the functions that change the message list *)

Module UpdaterTheorems.
Import Js Client Chat Notions.

Lemma changeLastAssistant_nil (change : ChatMessage -> ChatMessage) :
  changeLastAssistant change [] = [].
Proof. reflexivity. Qed.

Lemma changeLastAssistant_snoc (change : ChatMessage -> ChatMessage)
  (init : list ChatMessage) (l : ChatMessage) :
  changeLastAssistant change (init ++ [l])
  = init ++ [if Role_eqb (role l) assistant then change l else l].
Proof.
  unfold changeLastAssistant.
  replace (length (init ++ [l]) - 1)%nat with (length init)
    by (rewrite length_app; simpl; lia).
  rewrite list_lookup_middle by reflexivity.
  destruct (Role_eqb (role l) assistant); [|reflexivity].
  rewrite insert_app_r_alt by lia.
  now replace (length init - length init)%nat with 0%nat by lia.
Qed.

Lemma changeLastAssistant_sameButLast (change : ChatMessage -> ChatMessage)
  (prev : list ChatMessage) :
  sameButLast prev (changeLastAssistant change prev).
Proof.
  destruct (last prev) as [l|] eqn:E.
  - apply last_Some in E as [init ->].
    rewrite changeLastAssistant_snoc. repeat split.
    + rewrite !length_app. reflexivity.
    + intros i Hi. rewrite length_app in Hi. simpl in Hi.
      rewrite !lookup_app_l by lia. reflexivity.
    + intros l' Hl' Hrole. rewrite last_snoc in Hl'. injection Hl' as <-.
      destruct (role l); [reflexivity | contradiction].
  - apply last_None in E as ->. repeat split.
Qed.

Lemma changeLastAssistant_last (change : ChatMessage -> ChatMessage)
  (prev : list ChatMessage) (l : ChatMessage) :
  last prev = Some l -> role l = assistant ->
  last (changeLastAssistant change prev) = Some (change l).
Proof.
  intros E Hrole. apply last_Some in E as [init ->].
  rewrite changeLastAssistant_snoc, Hrole. simpl. apply last_snoc.
Qed.

(** C9. Each of the three functions the stream callbacks give to
    [onMessagesChange] keeps the length of the list and every element
    but the last, and returns the list as it is when the last element is
    not of the assistant (or there is none); when it is, appending a
    chunk changes its content alone, replacing the sources changes its
    sources alone, and the error notice replaces its content alone. *)
Theorem updaters_change_last_assistant_only
  (chunk error : jsstring) (srcs : list Source) (prev : list ChatMessage) :
  sameButLast prev (appendUpdater chunk prev)
  /\ sameButLast prev (sourcesUpdater srcs prev)
  /\ sameButLast prev (errorUpdater error prev)
  /\ appendUpdater chunk [] = []
  /\ sourcesUpdater srcs [] = []
  /\ errorUpdater error [] = []
  /\ (forall l, last prev = Some l -> role l = assistant ->
        last (appendUpdater chunk prev)
        = Some {| role := role l; content := content l ++ chunk;
                  sources := sources l |}
        /\ last (sourcesUpdater srcs prev)
           = Some {| role := role l; content := content l;
                     sources := Some srcs |}
        /\ last (errorUpdater error prev)
           = Some {| role := role l; content := errorNotice ++ error;
                     sources := sources l |}).
Proof.
  unfold appendUpdater, sourcesUpdater, errorUpdater.
  repeat split; try apply changeLastAssistant_sameButLast;
    erewrite changeLastAssistant_last by eassumption; reflexivity.
Qed.

(** A chunk appended to a reply that follows a question. *)
Lemma updaters_change_last_assistant_only_witness :
  last (appendUpdater (js "y")
          [ {| role := user; content := js "q"; sources := None |};
            {| role := assistant; content := js "He"; sources := Some [] |} ])
  = Some {| role := assistant; content := js "He" ++ js "y";
            sources := Some [] |}.
Proof.
  pose proof (updaters_change_last_assistant_only (js "y") [] []
                [ {| role := user; content := js "q"; sources := None |};
                  {| role := assistant; content := js "He";
                     sources := Some [] |} ])
    as (_ & _ & _ & _ & _ & _ & H).
  exact (proj1 (H _ eq_refl eq_refl)).
Defined.

End UpdaterTheorems.

(** ** The world of the component under the events of one stream *)

Module ChatFacts.
Import Js Client Chat Notions UpdaterTheorems.

(** The fields of a world after the changes the component makes to it. *)
Ltac fields :=
  try unfold abortCurrent in *;
  cbn [chatIdEffect unmountCleanup onMessagesChange stopTypingTimer
       set_app set_chatId setInput setIsLoading set_requestControllerRef
       set_tokenQueueRef set_streamDoneRef set_typingTimerRef set_aborted
       set_controllers
       Chat.app chatId input isLoading requestControllerRef tokenQueueRef
       streamDoneRef typingTimerRef aborted controllers
       App.chats App.activeChatId] in *.

Lemma messagesOf_updateMessagesOf (chatId now : jsstring)
  (updater : list ChatMessage -> list ChatMessage) (l : list App.ChatSession) :
  App.messagesOf chatId (App.updateMessagesOf chatId updater now l)
  = updater <$> App.messagesOf chatId l.
Proof.
  unfold App.messagesOf, App.updateMessagesOf.
  induction l as [|chat l IH]; simpl; [reflexivity|].
  destruct (App.hasId chatId chat) eqn:E; simpl.
  - unfold App.hasId in *. simpl. rewrite E. reflexivity.
  - rewrite E. exact IH.
Qed.

Lemma messagesOf_onMessagesChange (chatId now : jsstring)
  (updater : list ChatMessage -> list ChatMessage) (w : World) :
  App.messagesOf chatId (App.chats (app (onMessagesChange chatId updater now w)))
  = updater <$> App.messagesOf chatId (App.chats (app w)).
Proof. apply messagesOf_updateMessagesOf. Qed.

Lemma signalAborted_false (c : Controller) (w : World) :
  ctrl c ∉ aborted w -> signalAborted c w = false.
Proof. intros H. unfold signalAborted. now apply bool_decide_eq_false. Qed.

Lemma signalAborted_true (c : Controller) (w : World) :
  ctrl c ∈ aborted w -> signalAborted c w = true.
Proof. intros H. unfold signalAborted. now apply bool_decide_eq_true. Qed.

Lemma length_eqb_0 (q : jsstring) :
  (length q =? 0)%nat = true <-> q = [].
Proof. destruct q; simpl; split; congruence. Qed.

(** The state [handleSubmit] leaves when it accepts the question. *)
Lemma handleSubmit_streaming (now : jsstring) (w0 w : World) (req : Request) :
  mounted w0 -> handleSubmit now w0 = (w, Some req) ->
  exists old,
    App.messagesOf (chatId w0) (App.chats (app w0)) = Some old
    /\ boundTo (controller req) = chatId w0
    /\ question req = trim (input w0)
    /\ isLoading w = true
    /\ streaming (controller req)
         (old ++ [{| role := user; content := question req; sources := None |}])
         [] false w.
Proof.
  intros ([old Hold] & Hab & _) H. unfold handleSubmit in H.
  destruct (App.isEmpty (trim (input w0)) || isLoading w0); [discriminate|].
  injection H as <- <-. exists old. simpl.
  repeat split; try assumption.
  exists {| role := assistant; content := []; sources := Some [] |}.
  simpl. rewrite messagesOf_updateMessagesOf. simpl. rewrite Hold. simpl.
  unfold submitUpdater.
  repeat split; try (now left); try congruence.
  - now rewrite <- app_assoc.
  - intros Hin. apply Hab in Hin. lia.
Qed.

(** One event of the stream keeps [streaming], with the token added to
    the text received. *)
Lemma streaming_step (c : Controller) (before : list ChatMessage)
  (received : jsstring) (done : bool) (w : World) (e : Event) :
  streaming c before received done w -> streamEvent c e ->
  streaming c before (received ++ tokensOf [e]) (done || isDone e) (step w e).
Proof.
  intros (reply & Hm & Hrole & Htext & Hdone & Htimer & Hrun & Hfin & Hab) He.
  pose proof (signalAborted_false c w Hab) as Hsig.
  destruct e as [s | | c' token | c' now srcs | c' | | now | | | |];
    simpl in He; try contradiction; subst; simpl;
    rewrite ?app_nil_r, ?orb_false_r, ?orb_true_r.
  - (* typing *)
    exists reply. fields. split_and!; assumption || reflexivity.
  - (* token *)
    unfold tokenCallback. rewrite Hsig. unfold startTypewriter. fields.
    exists reply.
    destruct (typingTimerRef w) as [t|] eqn:Et; fields; rewrite ?Et.
    + destruct Htimer as [Ht | Ht]; [discriminate|].
      split_and!; try assumption; try reflexivity.
      * now rewrite app_assoc.
      * now right.
      * intros _. exact Ht.
      * intros Hd Hq. apply app_eq_nil in Hq as [Hq _]. auto.
    + split_and!; try assumption; try reflexivity.
      * now rewrite app_assoc.
      * now right.
      * intros Hd Hq. apply app_eq_nil in Hq as [Hq _]. auto.
  - (* sources *)
    unfold sourcesCallback. rewrite Hsig.
    exists {| role := role reply; content := content reply;
              sources := Some srcs |}.
    rewrite messagesOf_onMessagesChange, Hm. fields. simpl.
    unfold sourcesUpdater. rewrite changeLastAssistant_snoc, Hrole. simpl.
    split_and!; assumption || reflexivity.
  - (* done *)
    unfold doneCallback. rewrite Hsig. unfold finalizeIfStreamFinished.
    fields. exists reply. simpl.
    destruct (length (tokenQueueRef w) =? 0)%nat eqn:Eq; fields.
    + apply length_eqb_0 in Eq. split_and!; try assumption; try reflexivity.
      * now left.
      * intros Hq. contradiction.
    + split_and!; try assumption; try reflexivity.
      intros _ Hq. rewrite Hq in Eq. discriminate.
  - (* tick *)
    unfold tick.
    destruct (typingTimerRef w) as [t|] eqn:Et;
      [|exists reply; rewrite ?Et; split_and!; assumption || reflexivity].
    destruct Htimer as [Ht | Ht]; [discriminate|]. injection Ht as ->.
    destruct (tokenQueueRef w) as [|x q] eqn:Eq; simpl.
    + unfold finalizeIfStreamFinished. rewrite Eq. simpl.
      rewrite andb_true_r. exists reply.
      destruct (streamDoneRef w) eqn:Ed; fields;
        rewrite ?Eq, ?Et, ?Ed; split_and!; try assumption; try reflexivity;
        try (now left); try (now right); try contradiction.
    + exists {| role := role reply; content := content reply ++ [x];
                sources := sources reply |}.
      unfold finalizeIfStreamFinished, appendAssistantChunk. fields.
      destruct (streamDoneRef w && (length q =? 0)%nat) eqn:Ef; fields;
        rewrite messagesOf_updateMessagesOf, Hm; simpl;
        unfold appendUpdater; rewrite changeLastAssistant_snoc, Hrole; simpl.
      * apply andb_true_iff in Ef as [Ed Eq']. apply length_eqb_0 in Eq'.
        subst q. split_and!; try assumption; try reflexivity.
        -- now rewrite <- app_assoc.
        -- now left.
        -- intros Hq. contradiction.
      * split_and!; try assumption; try reflexivity.
        -- now rewrite <- app_assoc.
        -- now right.
        -- intros _. assumption.
        -- intros Hd Hq. subst q. rewrite Hd in Ef. discriminate.
Qed.

Lemma tokensOf_app (t1 t2 : list Event) :
  tokensOf (t1 ++ t2) = tokensOf t1 ++ tokensOf t2.
Proof. apply flat_map_app. Qed.

Lemma streaming_run (c : Controller) (before : list ChatMessage)
  (trace : list Event) :
  forall (received : jsstring) (done : bool) (w : World),
    streaming c before received done w -> Forall (streamEvent c) trace ->
    streaming c before (received ++ tokensOf trace)
              (done || existsb isDone trace) (run w trace).
Proof.
  induction trace as [|e trace IH]; intros received done w Hs Ht.
  - simpl. now rewrite app_nil_r, orb_false_r.
  - inversion Ht as [|? ? He Ht']; subst.
    change (e :: trace) with ([e] ++ trace).
    rewrite tokensOf_app, app_assoc. simpl existsb. rewrite orb_assoc.
    apply IH; [|exact Ht'].
    now apply streaming_step.
Qed.

Lemma finalize_queue (w : World) :
  tokenQueueRef (finalizeIfStreamFinished w) = tokenQueueRef w.
Proof.
  unfold finalizeIfStreamFinished.
  destruct (streamDoneRef w && (length (tokenQueueRef w) =? 0)%nat);
    reflexivity.
Qed.

Lemma tick_queue (now t : jsstring) (x : N) (q : jsstring) (w : World) :
  typingTimerRef w = Some t -> tokenQueueRef w = x :: q ->
  tokenQueueRef (tick now w) = q.
Proof.
  intros Ht Hq. unfold tick. rewrite Ht, Hq. simpl.
  rewrite finalize_queue. reflexivity.
Qed.

(** As many ticks as there are code units in the queue empty it. *)
Lemma streaming_drain (c : Controller) (before : list ChatMessage)
  (nows : list jsstring) :
  forall (received : jsstring) (done : bool) (w : World),
    streaming c before received done w ->
    length nows = length (tokenQueueRef w) ->
    tokenQueueRef (run w (List.map Tick nows)) = [].
Proof.
  induction nows as [|now nows IH]; intros received done w Hs Hlen.
  - simpl in *. now destruct (tokenQueueRef w).
  - destruct (tokenQueueRef w) as [|x q] eqn:Eq; [discriminate|].
    simpl. pose proof (streaming_step c before received done w (Tick now)
                         Hs I) as Hs'.
    destruct Hs as (reply & _ & _ & _ & _ & _ & Hrun & _).
    assert (typingTimerRef w = Some (boundTo c)) as Ht
      by (apply Hrun; rewrite Eq; discriminate).
    eapply IH; [exact Hs'|].
    simpl. rewrite (tick_queue now _ x q w Ht Eq). simpl in Hlen. lia.
Qed.

Lemma run_app (w : World) (t1 t2 : list Event) :
  run w (t1 ++ t2) = run (run w t1) t2.
Proof. apply fold_left_app. Qed.

End ChatFacts.

(** ** C2, C3 and C6: the typewriter *)

Module TypewriterTheorems.
Import Js Client Chat Notions Samples UpdaterTheorems ChatFacts.

(** C2. After a question is submitted, whatever the order in which the
    tokens of its stream, its sources, its end, the ticks of the interval
    and the typing of the user come: the reply is the last message of the
    session, after the earlier messages and the question; what is shown of
    it, followed by what is still queued, is the text of the tokens in the
    order they arrived; so once the end has come and the queue is empty
    the reply is that text and loading is cleared; and as many ticks as
    code units are queued empty the queue. *)
Theorem typewriter_reveals_in_arrival_order
  (now0 : jsstring) (w0 w : World) (req : Request) (trace : list Event) :
  mounted w0 ->
  handleSubmit now0 w0 = (w, Some req) ->
  Forall (streamEvent (controller req)) trace ->
  exists (old : list ChatMessage) (reply : ChatMessage),
    App.messagesOf (chatId w0) (App.chats (app w0)) = Some old
    /\ App.messagesOf (chatId w0) (App.chats (app (run w trace)))
       = Some (old ++ [{| role := user; content := trim (input w0);
                          sources := None |}; reply])
    /\ role reply = assistant
    /\ content reply ++ tokenQueueRef (run w trace) = tokensOf trace
    /\ (existsb isDone trace = true -> tokenQueueRef (run w trace) = [] ->
        content reply = tokensOf trace /\ isLoading (run w trace) = false)
    /\ (forall nows : list jsstring,
          length nows = length (tokenQueueRef (run w trace)) ->
          tokenQueueRef (run w (trace ++ List.map Tick nows)) = []).
Proof.
  intros Hm Hs Ht.
  destruct (handleSubmit_streaming now0 w0 w req Hm Hs)
    as (old & Hold & Hb & Hq & Hload & Hstr).
  pose proof (streaming_run _ _ trace _ _ _ Hstr Ht) as Hrun.
  pose proof Hrun as (reply & Hmsg & Hrole & Htext & Hdone & _ & _ & Hfin & _).
  simpl in Htext, Hfin.
  exists old, reply. rewrite Hb, Hq in Hmsg.
  split_and!; try assumption.
  - rewrite Hmsg, <- app_assoc. reflexivity.
  - intros Hd Hempty. split; [|now apply Hfin].
    rewrite Hempty, app_nil_r in Htext. exact Htext.
  - intros nows Hlen. rewrite run_app.
    eapply streaming_drain; [exact Hrun | exact Hlen].
Qed.

Lemma mounted_world0 : mounted world0.
Proof.
  split_and!; [eexists; reflexivity | |].
  - intros n Hn. simpl in Hn. set_solver.
  - intros n Hn. discriminate.
Qed.

Lemma streamEvent_trace1 : Forall (streamEvent stream1) trace1.
Proof. repeat constructor. Qed.

(** Two tokens, ticks in between, and the end of the stream. *)
Lemma typewriter_reveals_in_arrival_order_witness :
  exists (old : list ChatMessage) (reply : ChatMessage),
    App.messagesOf (chatId world0) (App.chats (app world0)) = Some old
    /\ App.messagesOf (chatId world0)
         (App.chats (app (run world1 trace1)))
       = Some (old ++ [{| role := user; content := trim (input world0);
                          sources := None |}; reply])
    /\ role reply = assistant
    /\ content reply ++ tokenQueueRef (run world1 trace1) = tokensOf trace1
    /\ (existsb isDone trace1 = true ->
        tokenQueueRef (run world1 trace1) = [] ->
        content reply = tokensOf trace1
        /\ isLoading (run world1 trace1) = false)
    /\ (forall nows : list jsstring,
          length nows = length (tokenQueueRef (run world1 trace1)) ->
          tokenQueueRef (run world1 (trace1 ++ List.map Tick nows)) = []).
Proof.
  apply (typewriter_reveals_in_arrival_order t0 world0 world1 request1 trace1).
  - exact mounted_world0.
  - reflexivity.
  - exact streamEvent_trace1.
Defined.

Example reply_after_trace1 :
  App.messagesOf (js "c1") (App.chats (app (run world1 trace1)))
  = Some [ {| role := user; content := js "Hi?"; sources := None |};
           {| role := assistant; content := js "Hey"; sources := Some [] |} ]
  /\ isLoading (run world1 trace1) = false
  /\ typingTimerRef (run world1 trace1) = None.
Proof. vm_compute. repeat split. Qed.

(** C3. When the error callback of the stream runs, not aborted, after
    any such course of tokens, sources, end and ticks, the interval is
    stopped, the queue is empty, loading is cleared, and the reply, still
    the last message after the question, has the notice and the error
    text as its content and nothing of the tokens. *)
Theorem error_replaces_partial_reply
  (now0 now error : jsstring) (w0 w : World) (req : Request)
  (trace : list Event) :
  mounted w0 ->
  handleSubmit now0 w0 = (w, Some req) ->
  Forall (streamEvent (controller req)) trace ->
  let w' := step (run w trace) (Error (controller req) now error) in
  typingTimerRef w' = None
  /\ tokenQueueRef w' = []
  /\ isLoading w' = false
  /\ exists (old : list ChatMessage) (reply : ChatMessage),
       App.messagesOf (chatId w0) (App.chats (app w0)) = Some old
       /\ App.messagesOf (chatId w0) (App.chats (app w'))
          = Some (old ++ [{| role := user; content := trim (input w0);
                             sources := None |}; reply])
       /\ role reply = assistant
       /\ content reply = errorNotice ++ error.
Proof.
  intros Hm Hs Ht.
  destruct (handleSubmit_streaming now0 w0 w req Hm Hs)
    as (old & Hold & Hb & Hq & Hload & Hstr).
  pose proof (streaming_run _ _ trace _ _ _ Hstr Ht)
    as (reply & Hmsg & Hrole & _ & _ & _ & _ & _ & Hab).
  simpl. unfold errorCallback.
  rewrite (signalAborted_false _ _ Hab). fields.
  split_and!; try reflexivity.
  exists old, {| role := role reply; content := errorNotice ++ error;
                 sources := sources reply |}.
  rewrite <- Hb at 2. rewrite messagesOf_updateMessagesOf, Hmsg. simpl.
  unfold errorUpdater. rewrite changeLastAssistant_snoc, Hrole, Hq. simpl.
  rewrite <- app_assoc. split_and!; try assumption; reflexivity.
Qed.

(** An error after one of two characters was shown. *)
Lemma error_replaces_partial_reply_witness :
  let w' := step (run world1 trace2) (Error stream1 t0 (js "boom")) in
  typingTimerRef w' = None
  /\ tokenQueueRef w' = []
  /\ isLoading w' = false
  /\ exists (old : list ChatMessage) (reply : ChatMessage),
       App.messagesOf (chatId world0) (App.chats (app world0)) = Some old
       /\ App.messagesOf (chatId world0) (App.chats (app w'))
          = Some (old ++ [{| role := user; content := trim (input world0);
                             sources := None |}; reply])
       /\ role reply = assistant
       /\ content reply = errorNotice ++ js "boom".
Proof.
  apply (error_replaces_partial_reply t0 t0 (js "boom") world0 world1
           request1 trace2).
  - exact mounted_world0.
  - reflexivity.
  - repeat constructor.
Defined.

Example partial_reply_before_error :
  App.messagesOf (js "c1") (App.chats (app (run world1 trace2)))
  = Some [ {| role := user; content := js "Hi?"; sources := None |};
           {| role := assistant; content := js "H"; sources := Some [] |} ]
  /\ tokenQueueRef (run world1 trace2) = js "e".
Proof. vm_compute. repeat split. Qed.

Lemma finalize_cases (w : World) :
  if streamDoneRef w && (length (tokenQueueRef w) =? 0)%nat
  then finalizeIfStreamFinished w
       = set_requestControllerRef None (setIsLoading false (stopTypingTimer w))
  else finalizeIfStreamFinished w = w.
Proof.
  unfold finalizeIfStreamFinished.
  now destruct (streamDoneRef w && (length (tokenQueueRef w) =? 0)%nat).
Qed.

Lemma isLoading_rerender (a : App.State) (w : World) :
  isLoading (rerender a w) = false ->
  isLoading w = false \/ tokenQueueRef (rerender a w) = [].
Proof.
  unfold rerender.
  destruct (App.activeChat (App.syncActiveChatId a)) as [active|].
  - destruct (jsstring_eqb (App.id active) (chatId w)).
    + fields. now left.
    + intros _. right. unfold chatIdEffect, abortCurrent. fields.
      destruct (requestControllerRef w); reflexivity.
  - unfold unmountCleanup, abortCurrent. fields.
    destruct (requestControllerRef w); fields; now left.
Qed.

(** C6. The end of the stream sets the flag and keeps the queue and the
    messages; after it, and after a tick of the running interval, loading
    is cleared and the interval stopped when the flag is set and the
    queue is empty, and both are as before otherwise; a tick on an empty
    queue before the end leaves the world as it is, interval running; and
    no event at all clears loading and leaves text in the queue. *)
Theorem loading_cleared_when_done_and_drained :
  (forall (w : World) (c : Controller),
     signalAborted c w = false ->
     streamDoneRef (doneCallback c w) = true
     /\ tokenQueueRef (doneCallback c w) = tokenQueueRef w
     /\ app (doneCallback c w) = app w)
  /\ (forall (w : World) (e : Event),
        (exists c, e = Done c /\ signalAborted c w = false)
        \/ (exists now, e = Tick now /\ typingTimerRef w <> None) ->
        if streamDoneRef (step w e)
           && (length (tokenQueueRef (step w e)) =? 0)%nat
        then isLoading (step w e) = false /\ typingTimerRef (step w e) = None
        else isLoading (step w e) = isLoading w
             /\ typingTimerRef (step w e) = typingTimerRef w)
  /\ (forall (w : World) (now : jsstring),
        typingTimerRef w <> None -> tokenQueueRef w = [] ->
        streamDoneRef w = false -> tick now w = w)
  /\ (forall (w : World) (e : Event),
        isLoading w = true -> isLoading (step w e) = false ->
        tokenQueueRef (step w e) = []).
Proof.
  split_and!.
  - intros w c Hc. unfold doneCallback. rewrite Hc.
    pose proof (finalize_cases (set_streamDoneRef true w)) as H.
    destruct (streamDoneRef _ && _); rewrite H; fields; now split_and!.
  - intros w e [(c & -> & Hc) | (now & -> & Ht)]; simpl.
    + unfold doneCallback. rewrite Hc.
      pose proof (finalize_cases (set_streamDoneRef true w)) as H.
      destruct (streamDoneRef (set_streamDoneRef true w)
                && (length (tokenQueueRef (set_streamDoneRef true w)) =? 0)%nat)
        eqn:E; rewrite H; fields; rewrite E; now split.
    + unfold tick. destruct (typingTimerRef w) as [t|] eqn:Et; [|contradiction].
      destruct (tokenQueueRef w) as [|x q] eqn:Eq; simpl.
      * pose proof (finalize_cases w) as H. rewrite Eq in H. simpl in H.
        destruct (streamDoneRef w && true) eqn:E; rewrite H; fields;
          rewrite ?Eq; simpl; rewrite E; now split.
      * set (w1 := appendAssistantChunk t now [x] (set_tokenQueueRef q w)).
        pose proof (finalize_cases w1) as H.
        destruct (streamDoneRef w1 && (length (tokenQueueRef w1) =? 0)%nat)
          eqn:E; rewrite H; subst w1; unfold appendAssistantChunk in *;
          fields; rewrite E; now split.
  - intros w now Ht Hq Hd. unfold tick.
    destruct (typingTimerRef w); [|contradiction].
    rewrite Hq. simpl. unfold finalizeIfStreamFinished. now rewrite Hd.
  - intros w e Hload. destruct e; simpl.
    + fields. congruence.
    + unfold handleSubmit. rewrite Hload, orb_true_r. simpl. congruence.
    + unfold tokenCallback, startTypewriter.
      destruct (signalAborted c w); [congruence|].
      fields. destruct (typingTimerRef w); fields; congruence.
    + unfold sourcesCallback. destruct (signalAborted c w); fields; congruence.
    + unfold doneCallback. destruct (signalAborted c w); [congruence|].
      pose proof (finalize_cases (set_streamDoneRef true w)) as H.
      destruct (streamDoneRef _ && _) eqn:E; rewrite H; fields;
        [|congruence].
      intros _. apply andb_true_iff in E as [_ E]. now apply length_eqb_0.
    + unfold errorCallback. destruct (signalAborted c w); [congruence|].
      fields. reflexivity.
    + unfold tick. destruct (typingTimerRef w) as [t|]; [|congruence].
      destruct (tokenQueueRef w) as [|x q] eqn:Eq; simpl.
      * rewrite finalize_queue. now rewrite Eq.
      * set (w1 := appendAssistantChunk t now [x] (set_tokenQueueRef q w)).
        pose proof (finalize_cases w1) as H.
        destruct (streamDoneRef w1 && (length (tokenQueueRef w1) =? 0)%nat)
          eqn:E; rewrite H.
        -- intros _. apply andb_true_iff in E as [_ E].
           apply length_eqb_0 in E. subst w1.
           unfold appendAssistantChunk in *. fields. exact E.
        -- subst w1. unfold appendAssistantChunk. fields. congruence.
    + intros H. apply isLoading_rerender in H as [H | H]; congruence.
    + intros H. apply isLoading_rerender in H as [H | H]; congruence.
    + intros H. apply isLoading_rerender in H as [H | H]; congruence.
    + unfold unmountCleanup, abortCurrent. fields.
      destruct (requestControllerRef w); fields; congruence.
Qed.

(** The end of the stream with one character still queued; a tick when
    all is shown and the stream has not ended; an error while loading. *)
Lemma loading_cleared_when_done_and_drained_witness :
  (isLoading (step (run world1 trace2) (Done stream1)) = true
   /\ typingTimerRef (step (run world1 trace2) (Done stream1))
      = Some (js "c1"))
  /\ tick t0 (run world1 trace3) = run world1 trace3
  /\ tokenQueueRef (step (run world1 trace2) (Error stream1 t0 [])) = [].
Proof.
  split; [|split].
  - pose proof (proj1 (proj2 loading_cleared_when_done_and_drained)
                  (run world1 trace2) (Done stream1)
                  (or_introl (ex_intro _ stream1 (conj eq_refl eq_refl))))
      as H.
    vm_compute in H. vm_compute. exact H.
  - apply (proj1 (proj2 (proj2 loading_cleared_when_done_and_drained))).
    + vm_compute. discriminate.
    + vm_compute. reflexivity.
    + vm_compute. reflexivity.
  - apply (proj2 (proj2 (proj2 loading_cleared_when_done_and_drained))).
    + vm_compute. reflexivity.
    + vm_compute. reflexivity.
Defined.

End TypewriterTheorems.

(** ** C5 and C7: cancellation and the guard of submission *)

Module SessionTheorems.
Import Js Client Chat Notions Samples ChatFacts.

Lemma aborted_abortCurrent (n : nat) (w : World) :
  n ∈ aborted w -> n ∈ aborted (abortCurrent w).
Proof.
  unfold abortCurrent. destruct (requestControllerRef w); fields; set_solver.
Qed.

Lemma aborted_finalize (w : World) :
  aborted (finalizeIfStreamFinished w) = aborted w.
Proof.
  unfold finalizeIfStreamFinished.
  now destruct (streamDoneRef w && (length (tokenQueueRef w) =? 0)%nat).
Qed.

Lemma aborted_rerender (n : nat) (a : App.State) (w : World) :
  n ∈ aborted w -> n ∈ aborted (rerender a w).
Proof.
  intros H. unfold rerender.
  destruct (App.activeChat (App.syncActiveChatId a)) as [active|].
  - destruct (jsstring_eqb (App.id active) (chatId w)); [exact H|].
    unfold chatIdEffect. fields.
    destruct (requestControllerRef w); fields; set_solver.
  - unfold unmountCleanup. fields.
    destruct (requestControllerRef w); fields; set_solver.
Qed.

(** An aborted signal stays aborted. *)
Lemma aborted_step (n : nat) (w : World) (e : Event) :
  n ∈ aborted w -> n ∈ aborted (step w e).
Proof.
  intros H. destruct e; simpl; try (now apply aborted_rerender).
  - exact H.
  - unfold handleSubmit.
    destruct (App.isEmpty (trim (input w)) || isLoading w); exact H.
  - unfold tokenCallback, startTypewriter.
    destruct (signalAborted c w); [exact H|].
    fields. destruct (typingTimerRef w); exact H.
  - unfold sourcesCallback. destruct (signalAborted c w); exact H.
  - unfold doneCallback. destruct (signalAborted c w); [exact H|].
    rewrite aborted_finalize. exact H.
  - unfold errorCallback. destruct (signalAborted c w); exact H.
  - unfold tick. destruct (typingTimerRef w); [|exact H].
    destruct (length (tokenQueueRef w) =? 0)%nat;
      rewrite aborted_finalize; exact H.
  - unfold unmountCleanup. fields.
    destruct (requestControllerRef w); fields; set_solver.
Qed.

Lemma fromStream_inert (w : World) (c : Controller) (e : Event) :
  fromStream c e = true -> ctrl c ∈ aborted w -> step w e = w.
Proof.
  intros He Hc.
  destruct e as [| | c' ? | c' ? ? | c' | c' ? ? | | | | |];
    try discriminate; simpl in *; apply bool_decide_eq_true in He;
    unfold tokenCallback, sourcesCallback, doneCallback, errorCallback,
      signalAborted; rewrite He, bool_decide_eq_true_2 by exact Hc;
    reflexivity.
Qed.

(** C5. Once the signal of a controller is aborted, every callback of its
    stream leaves the whole world as it is, and a course of events ends
    in the same world with or without the callbacks of that stream in it;
    the effect of a change of session and the cleanup of the component
    abort the controller in use and stop the interval, the effect also
    empties the queue and clears loading, and whenever [App] shows another
    session the effect has run. *)
Theorem cancelled_stream_is_inert :
  (forall (w : World) (c : Controller) (e : Event),
     fromStream c e = true -> ctrl c ∈ aborted w -> step w e = w)
  /\ (forall (w : World) (c : Controller) (trace : list Event),
        ctrl c ∈ aborted w ->
        run w trace
        = run w (List.filter (fun e => negb (fromStream c e)) trace))
  /\ (forall (w : World) (n : nat),
        requestControllerRef w = Some n ->
        (n ∈ aborted (chatIdEffect w)
         /\ typingTimerRef (chatIdEffect w) = None
         /\ tokenQueueRef (chatIdEffect w) = []
         /\ isLoading (chatIdEffect w) = false)
        /\ (n ∈ aborted (unmountCleanup w)
            /\ typingTimerRef (unmountCleanup w) = None))
  /\ (forall (w : World) (a : App.State),
        chatId (rerender a w) <> chatId w ->
        rerender a w
        = chatIdEffect (set_chatId (chatId (rerender a w))
                          (set_app (App.syncActiveChatId a) w))).
Proof.
  split_and!.
  - exact fromStream_inert.
  - intros w c trace. revert w.
    induction trace as [|e trace IH]; intros w Hc; [reflexivity|].
    simpl. destruct (fromStream c e) eqn:He; simpl.
    + rewrite (fromStream_inert w c e He Hc). now apply IH.
    + apply IH. now apply aborted_step.
  - intros w n Hn. unfold chatIdEffect, unmountCleanup, abortCurrent.
    fields. rewrite Hn. fields. split_and!; try reflexivity; set_solver.
  - intros w a. unfold rerender.
    destruct (App.activeChat (App.syncActiveChatId a)) as [active|].
    + destruct (jsstring_eqb (App.id active) (chatId w)) eqn:E.
      * fields. contradiction.
      * intros _. unfold chatIdEffect, abortCurrent. fields.
        destruct (requestControllerRef w); reflexivity.
    + unfold unmountCleanup, abortCurrent. fields.
      destruct (requestControllerRef w); fields; contradiction.
Qed.

Lemma find_hasId_map (x : jsstring) (f : App.ChatSession -> App.ChatSession)
  (l : list App.ChatSession) :
  (forall c, App.id (f c) = App.id c) ->
  find (App.hasId x) (List.map f l) = f <$> find (App.hasId x) l.
Proof.
  intros Hf. induction l as [|c l IH]; simpl; [reflexivity|].
  unfold App.hasId at 1. rewrite Hf. fold (App.hasId x c).
  now destruct (App.hasId x c).
Qed.

Lemma messagesOf_update_is_Some (x y now : jsstring)
  (updater : list ChatMessage -> list ChatMessage) (l : list App.ChatSession) :
  is_Some (App.messagesOf x l) ->
  is_Some (App.messagesOf x (App.updateMessagesOf y updater now l)).
Proof.
  unfold App.messagesOf, App.updateMessagesOf.
  rewrite find_hasId_map by (intros c; now destruct (negb (App.hasId y c))).
  destruct (find (App.hasId x) l); simpl; [eauto|].
  intros [? [=]].
Qed.

Lemma hasId_self (c : App.ChatSession) : App.hasId (App.id c) c = true.
Proof. unfold App.hasId, jsstring_eqb. now apply bool_decide_eq_true. Qed.

(** The active session is a session of the list. *)
Lemma activeChat_found (a : App.State) (active : App.ChatSession) :
  App.activeChat a = Some active ->
  is_Some (App.messagesOf (App.id active) (App.chats a)).
Proof.
  unfold App.activeChat, App.messagesOf.
  destruct (find (App.hasId (App.activeChatId a)) (App.chats a)) as [c|] eqn:E.
  - intros [= ->]. pose proof (find_some _ _ E) as [_ Hid].
    unfold App.hasId, jsstring_eqb in Hid. apply bool_decide_eq_true in Hid.
    rewrite Hid, E. simpl. eauto.
  - destruct (App.chats a) as [|first rest]; [discriminate|].
    intros [= ->]. simpl. rewrite hasId_self. simpl. eauto.
Qed.

Lemma activeChat_None (a : App.State) :
  App.activeChat a = None -> App.chats a = [].
Proof.
  unfold App.activeChat.
  destruct (find _ _); [discriminate|].
  now destruct (App.chats a).
Qed.

Lemma mounted_finalize (w : World) :
  mounted w -> mounted (finalizeIfStreamFinished w).
Proof.
  intros (H1 & H2 & H3). unfold finalizeIfStreamFinished.
  destruct (streamDoneRef w && (length (tokenQueueRef w) =? 0)%nat);
    [|now split_and!].
  unfold mounted. fields. split_and!; [assumption.. | discriminate].
Qed.

Lemma mounted_rerender (a : App.State) (w : World) :
  mounted w -> App.chats (app (rerender a w)) <> [] -> mounted (rerender a w).
Proof.
  intros (H1 & H2 & H3). unfold rerender.
  destruct (App.activeChat (App.syncActiveChatId a)) as [active|] eqn:Ea.
  - pose proof (activeChat_found _ _ Ea) as Hf.
    destruct (jsstring_eqb (App.id active) (chatId w)) eqn:E.
    + unfold jsstring_eqb in E. apply bool_decide_eq_true in E.
      intros _. unfold mounted. fields. rewrite <- E. now split_and!.
    + intros _. unfold mounted, chatIdEffect. fields.
      destruct (requestControllerRef w) as [n|] eqn:En; fields;
        (split_and!; [assumption | | discriminate]).
      * intros m Hm. apply elem_of_union in Hm as [Hm | Hm]; [|auto].
        apply elem_of_singleton in Hm as ->. auto.
      * assumption.
  - apply activeChat_None in Ea. unfold unmountCleanup. fields.
    destruct (requestControllerRef w); fields; intros Hne; contradiction.
Qed.

(** X23. While the list of sessions is not empty the component stays
    shown for one of them, whatever happens, and the controllers in use
    or aborted are controllers that were made. *)
Lemma mounted_step (w : World) (e : Event) :
  mounted w -> App.chats (app (step w e)) <> [] -> mounted (step w e).
Proof.
  intros Hm. pose proof Hm as (H1 & H2 & H3).
  destruct e; simpl; try (now apply mounted_rerender); intros _.
  - unfold mounted. fields. now split_and!.
  - unfold handleSubmit.
    destruct (App.isEmpty (trim (input w)) || isLoading w); [exact Hm|].
    unfold mounted. simpl. fields. split_and!.
    + now apply messagesOf_update_is_Some.
    + intros n Hn. apply H2 in Hn. lia.
    + intros n [= <-]. lia.
  - unfold tokenCallback, startTypewriter.
    destruct (signalAborted c w); [exact Hm|]. fields.
    destruct (typingTimerRef w); unfold mounted; fields; now split_and!.
  - unfold sourcesCallback. destruct (signalAborted c w); [exact Hm|].
    unfold mounted. fields. split_and!; try assumption.
    now apply messagesOf_update_is_Some.
  - unfold doneCallback. destruct (signalAborted c w); [exact Hm|].
    apply mounted_finalize. unfold mounted. fields. now split_and!.
  - unfold errorCallback. destruct (signalAborted c w); [exact Hm|].
    unfold mounted. fields. split_and!; try assumption; [|discriminate].
    now apply messagesOf_update_is_Some.
  - unfold tick. destruct (typingTimerRef w); [|exact Hm].
    destruct (length (tokenQueueRef w) =? 0)%nat;
      apply mounted_finalize; [exact Hm|].
    unfold mounted, appendAssistantChunk. fields.
    split_and!; try assumption. now apply messagesOf_update_is_Some.
  - unfold mounted, unmountCleanup. fields.
    destruct (requestControllerRef w) as [n|] eqn:En; fields;
      (split_and!; [assumption | | discriminate]); [|assumption].
    intros m Hm'. apply elem_of_union in Hm' as [Hm' | Hm']; [|auto].
    apply elem_of_singleton in Hm' as ->. auto.
Qed.

Lemma mounted_step_witness : mounted (step world0 (Submit t0)).
Proof.
  apply mounted_step.
  - exact TypewriterTheorems.mounted_world0.
  - vm_compute. discriminate.
Defined.

Lemma stream1_aborted : ctrl stream1 ∈ aborted worldSwitched.
Proof. vm_compute. set_solver. Qed.

(** The first stream goes on after the user has opened a new session. *)
Lemma cancelled_stream_is_inert_witness :
  step worldSwitched (Token stream1 (js "llo")) = worldSwitched
  /\ run worldSwitched trace4
     = run worldSwitched
         [Typing (js "next"); Submit t0; Token stream2 (js "ok"); Tick t0;
          Tick t0]
  /\ (0%nat ∈ aborted (chatIdEffect (run world1 trace2))
      /\ typingTimerRef (chatIdEffect (run world1 trace2)) = None
      /\ tokenQueueRef (chatIdEffect (run world1 trace2)) = []
      /\ isLoading (chatIdEffect (run world1 trace2)) = false).
Proof.
  split_and!.
  - apply (proj1 cancelled_stream_is_inert worldSwitched stream1);
      [reflexivity | exact stream1_aborted].
  - apply (proj1 (proj2 cancelled_stream_is_inert) worldSwitched stream1
             trace4 stream1_aborted).
  - apply (proj1 (proj1 (proj2 (proj2 cancelled_stream_is_inert))
                    (run world1 trace2) 0%nat eq_refl)).
  - apply (proj1 (proj1 (proj2 (proj2 cancelled_stream_is_inert))
                    (run world1 trace2) 0%nat eq_refl)).
  - apply (proj1 (proj1 (proj2 (proj2 cancelled_stream_is_inert))
                    (run world1 trace2) 0%nat eq_refl)).
  - apply (proj1 (proj1 (proj2 (proj2 cancelled_stream_is_inert))
                    (run world1 trace2) 0%nat eq_refl)).
Defined.

(** After the switch the new session shows its own reply and nothing of
    the first stream; the first session keeps the one character it had. *)
Example sessions_after_switch :
  App.messagesOf (js "c2") (App.chats (app (run worldSwitched trace4)))
  = Some [ {| role := user; content := js "next"; sources := None |};
           {| role := assistant; content := js "ok"; sources := Some [] |} ]
  /\ App.messagesOf (js "c1") (App.chats (app (run worldSwitched trace4)))
     = Some [ {| role := user; content := js "Hi?"; sources := None |};
              {| role := assistant; content := js "H"; sources := Some [] |} ].
Proof. vm_compute. split; reflexivity. Qed.

(** C7. [handleSubmit] on a question that is empty after trimming, or
    while a reply is loading, leaves the world as it is, message list
    included, and makes no request. *)
Theorem submit_rejected_without_effect (now : jsstring) (w : World) :
  trim (input w) = [] \/ isLoading w = true ->
  handleSubmit now w = (w, None).
Proof.
  intros H. unfold handleSubmit.
  destruct H as [-> | ->]; [reflexivity | now rewrite orb_true_r].
Qed.

Lemma submit_rejected_without_effect_witness :
  handleSubmit t0 worldBlank = (worldBlank, None)
  /\ handleSubmit t0 worldBusy = (worldBusy, None).
Proof.
  split.
  - apply submit_rejected_without_effect. left. vm_compute. reflexivity.
  - apply submit_rejected_without_effect. right. vm_compute. reflexivity.
Defined.

(** A question that is not empty, asked while nothing loads, is sent. *)
Example submit_accepted :
  snd (handleSubmit t0 world0) = Some request1
  /\ App.messagesOf (js "c1") (App.chats (app world1))
     = Some [ {| role := user; content := js "Hi?"; sources := None |};
              {| role := assistant; content := []; sources := Some [] |} ]
  /\ isLoading world1 = true.
Proof. vm_compute. repeat split. Qed.

End SessionTheorems.

(** ** C10: the list of sessions *)

Module AppTheorems.
Import Js Client App Notions Samples.

Lemma filter_distinct (chatId : jsstring) (l : list ChatSession) :
  distinctIds l ->
  (length l <= S (length (List.filter (fun c => negb (hasId chatId c)) l)))%nat.
Proof.
  unfold distinctIds. induction l as [|a l IH]; simpl; [lia|].
  intros H. apply NoDup_cons in H as [Ha Hl].
  destruct (hasId chatId a) eqn:E; simpl; [|specialize (IH Hl); lia].
  enough (List.filter (fun c => negb (hasId chatId c)) l = l) as -> by lia.
  apply forallb_filter_id, forallb_forall. intros c Hc.
  destruct (hasId chatId c) eqn:Ec; [|reflexivity].
  unfold hasId, jsstring_eqb in *.
  apply bool_decide_eq_true in E, Ec. exfalso. apply Ha.
  rewrite E, <- Ec. apply list_elem_of_In, in_map, Hc.
Qed.

Lemma filter_keeps_distinct (f : ChatSession -> bool) (l : list ChatSession) :
  distinctIds l -> distinctIds (List.filter f l).
Proof.
  unfold distinctIds. induction l as [|a l IH]; simpl; [auto|].
  intros H. apply NoDup_cons in H as [Ha Hl].
  destruct (f a); simpl; [|auto].
  apply NoDup_cons. split; [|auto].
  intros Hin. apply Ha.
  apply list_elem_of_In, in_map_iff in Hin as (c & Hc & Hin).
  apply list_elem_of_In, in_map_iff. exists c. split; [exact Hc|].
  apply filter_In in Hin. tauto.
Qed.

Lemma ids_updateMessagesOf (chatId now : jsstring)
  (updater : list ChatMessage -> list ChatMessage) (l : list ChatSession) :
  List.map id (updateMessagesOf chatId updater now l) = List.map id l.
Proof.
  unfold updateMessagesOf. rewrite map_map. apply map_ext.
  intros c. now destruct (negb (hasId chatId c)).
Qed.

(** The claim as it stands fails on a list in which two sessions have one
    identifier: removing that identifier removes both. *)
Lemma removeChat_of_twins_is_empty :
  (1 <= length (chats twins))%nat
  /\ chats (removeChat (js "x") (js "z") t0 twins) = [].
Proof. split; [simpl; lia | reflexivity]. Qed.

(** C10, amended. The initializer yields at least one session whatever
    is stored; removing from a list of at most one session yields the list
    of one fresh session, which is made the active one; and on a list of
    sessions with pairwise distinct identifiers that is not empty, removing
    a chat leaves a list that is not empty and has distinct identifiers,
    a new chat makes the list longer, and changing the messages or the
    active session keeps the sessions and their identifiers. *)
Theorem session_list_stays_nonempty :
  (forall (parseSessions : jsstring -> option (list ChatSession))
          (stored : Stored) (fresh : ChatSession),
     (1 <= length (initChats parseSessions stored fresh))%nat)
  /\ (forall (chatId newId now : jsstring) (s : State),
        (length (chats s) <= 1)%nat ->
        removeChat chatId newId now s
        = {| chats := [createChatSession newId now]; activeChatId := newId |})
  /\ (forall s : State,
        distinctIds (chats s) -> (1 <= length (chats s))%nat ->
        (forall chatId newId now : jsstring,
           (1 <= length (chats (removeChat chatId newId now s)))%nat
           /\ distinctIds (chats (removeChat chatId newId now s)))
        /\ (forall newId now : jsstring,
              length (chats (createNewChat newId now s))
              = S (length (chats s)))
        /\ (forall (updater : list ChatMessage -> list ChatMessage)
                   (now : jsstring),
              List.map id (chats (updateActiveChatMessages updater now s))
              = List.map id (chats s))
        /\ (forall chatId : jsstring,
              chats (setActiveChatId chatId s) = chats s)
        /\ chats (syncActiveChatId s) = chats s).
Proof.
  split_and!.
  - intros parseSessions stored fresh. unfold initChats.
    destruct stored as [| |raw]; simpl; try lia.
    destruct (isEmpty raw); simpl; [lia|].
    destruct (parseSessions raw) as [parsed|]; simpl; [|lia].
    destruct (0 <? length parsed)%nat eqn:E; simpl; [|lia].
    apply Nat.ltb_lt in E. lia.
  - intros chatId newId now s H. unfold removeChat.
    apply Nat.leb_le in H. now rewrite H.
  - intros s Hd Hl. split_and!.
    + intros chatId newId now. unfold removeChat.
      destruct (length (chats s) <=? 1)%nat eqn:E; simpl.
      * split; [lia|]. unfold distinctIds. simpl.
        apply NoDup_singleton.
      * apply Nat.leb_gt in E.
        pose proof (filter_distinct chatId (chats s) Hd) as Hf.
        pose proof (filter_keeps_distinct
                      (fun c => negb (hasId chatId c)) (chats s) Hd) as Hk.
        destruct (List.filter _ (chats s)) as [|first rest] eqn:Ef;
          [simpl in Hf; lia|].
        destruct (jsstring_eqb (activeChatId s) chatId); simpl;
          (split; [lia | exact Hk]).
    + reflexivity.
    + intros updater now. unfold updateActiveChatMessages.
      destruct (activeChat s); [|reflexivity].
      simpl. apply ids_updateMessagesOf.
    + reflexivity.
    + unfold syncActiveChatId. destruct s as [l active]. simpl.
      destruct l as [|first rest]; [reflexivity|].
      destruct (isEmpty active); [reflexivity|].
      now destruct (negb _).
Qed.

Lemma distinct_pair : distinctIds (chats pair).
Proof.
  unfold distinctIds. simpl. apply NoDup_cons. split.
  - intros H. apply list_elem_of_singleton in H. discriminate.
  - apply NoDup_singleton.
Qed.

(** Removing one of two sessions with their own identifiers. *)
Lemma session_list_stays_nonempty_witness :
  (1 <= length (chats (removeChat (js "x") (js "z") t0 pair)))%nat
  /\ distinctIds (chats (removeChat (js "x") (js "z") t0 pair)).
Proof.
  apply (proj1 (proj2 (proj2 session_list_stays_nonempty) pair
                  distinct_pair ltac:(simpl; lia))).
Defined.

(** Nothing stored, an empty list stored, and text that does not parse. *)
Example initChats_samples (fresh : ChatSession) :
  initChats (fun _ => None) NoItem fresh = [fresh]
  /\ initChats (fun _ => Some []) (Item (js "[]")) fresh = [fresh]
  /\ initChats (fun _ => None) (Item (js "{oops")) fresh = [fresh]
  /\ initChats (fun _ => None) StorageThrows fresh = [fresh].
Proof. repeat split. Qed.

End AppTheorems.

(** ** C8: the check of the extension before an upload *)

Module UploadTheorems.
Import Js FileUpload Notions.

Section Upload.

Variable unicodeLower : jsstring -> jsstring.

Lemma handleUpload_decides (name : jsstring) :
  snd (handleUpload unicodeLower name)
  = if includes allowedExtensions (extOf unicodeLower name)
    then Some name else None.
Proof.
  unfold handleUpload.
  now destruct (includes allowedExtensions (extOf unicodeLower name)).
Qed.

Lemma jsstring_eqb_cons (c : N) (x y : jsstring) :
  jsstring_eqb (c :: x) (c :: y) = jsstring_eqb x y.
Proof.
  unfold jsstring_eqb. apply bool_decide_ext.
  split; [intros [= ->] | intros ->]; reflexivity.
Qed.

Lemma includes_dot (x : jsstring) :
  includes allowedExtensions (js "." ++ x)
  = existsb (jsstring_eqb x) [js "pdf"; js "docx"; js "doc"; js "txt"].
Proof.
  unfold includes, allowedExtensions.
  change (js ".pdf") with (46 :: js "pdf").
  change (js ".docx") with (46 :: js "docx").
  change (js ".doc") with (46 :: js "doc").
  change (js ".txt") with (46 :: js "txt").
  change (js "." ++ x) with (46 :: x).
  cbn [existsb]. now rewrite !jsstring_eqb_cons.
Qed.

(** For a name with a dot and an extension of ASCII characters the check
    is the one of the specification. *)
Lemma handleUpload_with_extension (name e : jsstring) :
  extensionOf name = Some e -> isAsciiOnly e = true ->
  snd (handleUpload unicodeLower name)
  = if allowedExtension e then Some name else None.
Proof.
  intros He Ha. rewrite handleUpload_decides. unfold extOf, extensionOf in *.
  destruct (split (js ".") name) as [|a [|b l]]; try discriminate.
  rewrite He. unfold toLowerCase. rewrite Ha, includes_dot. reflexivity.
Qed.

(** C8, at the input on which it fails. A file named [txt] has no dot in
    its name and so no extension, yet [split] and [pop] give the whole
    name back as if it were one, and the file is handed to [uploadFile]. *)
Theorem name_without_dot_is_uploaded :
  extensionOf (js "txt") = None
  /\ handleUpload unicodeLower (js "txt")
     = ({| status := uploading;
           statusMessage := uploadingPrefix ++ js "txt" ++ js "..." |},
        Some (js "txt")).
Proof. split; reflexivity. Qed.

(** The file of the specification, and names with an allowed extension in
    either case. *)
Example upload_samples :
  snd (handleUpload unicodeLower (js "report.exe")) = None
  /\ status (fst (handleUpload unicodeLower (js "report.exe"))) = error
  /\ snd (handleUpload unicodeLower (js "Report.PDF")) = Some (js "Report.PDF")
  /\ snd (handleUpload unicodeLower (js "notes.v2.Docx"))
     = Some (js "notes.v2.Docx")
  /\ snd (handleUpload unicodeLower (js "archive.tar.gz")) = None
  /\ snd (handleUpload unicodeLower (js "report.")) = None.
Proof. repeat split. Qed.

End Upload.

End UploadTheorems.

(** ** More on [streamChat] *)

Module StreamFacts.
Import Js Client JsFacts ClientFacts Notions Samples DecoderTheorems
  MoreNotions MoreSamples.

Lemma trimStart_blank (ws s : jsstring) :
  blank ws -> trimStart (ws ++ s) = trimStart s.
Proof.
  unfold blank. induction ws as [|c ws IH]; simpl; [reflexivity|].
  intros H. apply andb_true_iff in H as [-> H]. auto.
Qed.

Lemma trimStart_nil_iff (s : jsstring) : trimStart s = [] <-> blank s.
Proof.
  unfold blank. induction s as [|c s IH]; simpl; [tauto|].
  destruct (isWhiteSpace c); simpl; [exact IH|].
  split; discriminate.
Qed.

Lemma trimStart_app (s t : jsstring) :
  trimStart s <> [] -> trimStart (s ++ t) = trimStart s ++ t.
Proof.
  induction s as [|c s IH]; simpl; [contradiction|].
  destruct (isWhiteSpace c); [exact IH | reflexivity].
Qed.

Lemma blank_app (s t : jsstring) : blank s -> blank t -> blank (s ++ t).
Proof. unfold blank. rewrite forallb_app. now intros -> ->. Qed.

Lemma blank_rev (s : jsstring) : blank s -> blank (rev s).
Proof.
  unfold blank. rewrite !forallb_forall. intros H c Hc.
  apply H. now apply in_rev.
Qed.

Lemma trimEnd_blank (s ws : jsstring) :
  blank ws -> trimEnd (s ++ ws) = trimEnd s.
Proof.
  intros H. unfold trimEnd. rewrite rev_app_distr.
  now rewrite trimStart_blank by now apply blank_rev.
Qed.

(** White space around a text does not matter to [trim]. *)
Lemma trim_blank (ws1 s ws2 : jsstring) :
  blank ws1 -> blank ws2 -> trim (ws1 ++ s ++ ws2) = trim s.
Proof.
  intros H1 H2. unfold trim. rewrite trimStart_blank by exact H1.
  destruct (trimStart s) as [|c r] eqn:E.
  - apply trimStart_nil_iff in E.
    now rewrite (proj2 (trimStart_nil_iff _) (blank_app _ _ E H2)).
  - rewrite trimStart_app by (rewrite E; discriminate).
    rewrite E. now apply trimEnd_blank.
Qed.

Lemma handleLine_eq (line : jsstring) :
  handleLine line
  = if negb (startsWith (trim line) dataPrefix) then []
    else match JSON_parse (slice 6 (trim line)) with
         | Some event => default [] (dispatch event)
         | None => []
         end.
Proof.
  unfold handleLine.
  destruct (negb (startsWith (trim line) dataPrefix)); [reflexivity|].
  destruct (JSON_parse (slice 6 (trim line))); reflexivity.
Qed.

(** The [switch] makes one call or none. *)
Lemma dispatch_cases (event : JSValue) :
  dispatch event = None \/ dispatch event = Some []
  \/ (exists content, dispatch event = Some [onToken content])
  \/ (exists content, truthy content = true
                      /\ dispatch event = Some [onSources content])
  \/ dispatch event = Some [onDone]
  \/ (exists content, dispatch event = Some [onError content]).
Proof.
  unfold dispatch.
  destruct (getProp event (js "type")) as [type|]; [|now left].
  cbn [mbind option_bind].
  destruct (isString type (js "token")).
  { destruct (getProp event (js "content")) as [content|]; [|now left].
    right; right; left. now exists content. }
  destruct (isString type (js "sources")).
  { destruct (getProp event (js "content")) as [content|]; [|now left].
    right; right; right; left. cbn [mbind option_bind].
    destruct (truthy content) eqn:E; [now exists content|].
    now exists (VArray []). }
  destruct (isString type (js "done")); [tauto|].
  destruct (isString type (js "error")); [|tauto].
  destruct (getProp event (js "content")) as [content|]; [|now left].
  do 5 right. now exists content.
Qed.

Lemma handleLine_length (line : jsstring) : (length (handleLine line) <= 1)%nat.
Proof.
  rewrite handleLine_eq.
  destruct (negb (startsWith (trim line) dataPrefix)); [simpl; lia|].
  destruct (JSON_parse (slice 6 (trim line))) as [event|]; [|simpl; lia].
  destruct (dispatch_cases event)
    as [-> | [-> | [[c ->] | [(c & _ & ->) | [-> | [c ->]]]]]]; simpl; lia.
Qed.

Lemma readLoop_failure (st : LoopState) (chunks : list (list byte))
  (e : Exn) (rest : list ReadResult) :
  readLoop st (List.map ReadChunk chunks ++ ReadThrows e :: rest)
  = (concat (snd (readChunks st chunks)), Some e).
Proof.
  revert st. induction chunks as [|value chunks IH]; intros st; simpl.
  - reflexivity.
  - destruct (readChunk st value) as [st1 calls]. rewrite IH.
    destruct (readChunks st1 chunks) as [st2 more]. reflexivity.
Qed.

(** X1. When a read of the body fails, the calls made are those of the
    chunks read before, followed by nothing if the failure is the abort
    of the request and by one [onError] with the connection notice and
    the text of the failure otherwise; what the body would have held
    after that is not read. *)
Theorem read_failure_ends_stream (chunks : list (list byte)) (e : Exn)
  (rest : list ReadResult) :
  streamChat (bodyOf (List.map ReadChunk chunks ++ ReadThrows e :: rest))
  = concat (snd (readChunks loopStart chunks))
    ++ match e with
       | AbortError => []
       | OtherError t => [onError (VString (connectionErrorPrefix ++ t))]
       end.
Proof.
  unfold streamChat, bodyOf. simpl. rewrite readLoop_failure.
  now destruct e.
Qed.

(** X2. A stream makes at most one call for each complete frame of its
    text. *)
Theorem calls_bounded_by_frames (chunks : list (list byte)) :
  (length (streamChat (streamOf chunks))
   <= length (framesOf (textOf chunks)))%nat.
Proof.
  rewrite streamChat_streamOf. unfold readChunk, textOf, loopStart. simpl.
  destruct (decode newTextDecoder (concat chunks)) as [td text]. simpl.
  fold (framesOf text). induction (framesOf text) as [|f fs IH]; simpl; [lia|].
  rewrite length_app. pose proof (handleLine_length f). lia.
Qed.

(** X3. The text after the last delimiter of a body causes no call: the
    calls of a stream are those of the frames that a delimiter ends, so a
    last frame that the transport closes before its delimiter, the
    closing [done] frame too, is lost. *)
Theorem unterminated_tail_dropped (chunks : list (list byte))
  (pre tail : jsstring) :
  textOf chunks = pre ++ tail ->
  endsAtFrame pre ->
  cut delimiter tail = None ->
  streamChat (streamOf chunks) = flat_map handleLine (framesOf pre).
Proof.
  intros Htext Hpre Htail. rewrite streamChat_streamOf.
  unfold readChunk, textOf, loopStart in *. simpl in *.
  destruct (decode newTextDecoder (concat chunks)) as [td text].
  simpl in *. subst text.
  fold (framesOf (pre ++ tail)). rewrite (framesOf_app _ _ Hpre).
  unfold framesOf at 2. rewrite (split_cut_None _ _ Htail). simpl.
  now rewrite app_nil_r.
Qed.

Lemma unterminated_tail_dropped_witness :
  streamChat (streamOf unterminated)
  = flat_map handleLine
      (framesOf (wireText "data: {'type':'token','content':'Hi'}||")).
Proof.
  apply (unterminated_tail_dropped unterminated
           (wireText "data: {'type':'token','content':'Hi'}||")
           (wireText "data: {'type':'done'}")).
  - vm_compute. reflexivity.
  - vm_compute. reflexivity.
  - vm_compute. reflexivity.
Defined.

Example unterminated_done_is_lost :
  streamChat (streamOf unterminated) = [onToken (VString (js "Hi"))].
Proof. vm_compute. reflexivity. Qed.



(** X5. White space and line breaks around a frame do not matter to the
    call it causes. *)
Theorem frame_padding_ignored (ws1 line ws2 : jsstring) :
  blank ws1 -> blank ws2 ->
  handleLine (ws1 ++ line ++ ws2) = handleLine line.
Proof.
  intros H1 H2. unfold handleLine. now rewrite trim_blank.
Qed.

Lemma frame_padding_ignored_witness :
  handleLine paddedLine = handleLine (wireText "data: {'type':'done'}").
Proof.
  apply (frame_padding_ignored (wireText "| ")
           (wireText "data: {'type':'done'}") (wireText " |"));
    vm_compute; reflexivity.
Defined.

End StreamFacts.

(** ** More on the sessions of [App] *)

Module AppFacts.
Import Js Client App JsFacts Notions Samples MoreNotions StreamFacts
  AppTheorems AppSamples.

Lemma trimStart_suffix (s : jsstring) (c : N) :
  In c (trimStart s) -> In c s.
Proof.
  induction s as [|x s IH]; simpl; [tauto|].
  destruct (isWhiteSpace x); simpl; tauto.
Qed.

Lemma trim_In (s : jsstring) (c : N) : In c (trim s) -> In c s.
Proof.
  unfold trim, trimEnd. intros H.
  apply in_rev, trimStart_suffix, in_rev in H.
  now apply trimStart_suffix.
Qed.

Lemma trim_nil_iff (s : jsstring) : trim s = [] <-> blank s.
Proof.
  unfold trim, trimEnd. split.
  - intros H. apply trimStart_nil_iff.
    destruct (trimStart s) as [|c r] eqn:E; [reflexivity|].
    assert (trimStart (rev (c :: r)) = []) as Hr.
    { apply (f_equal (@rev N)) in H. now rewrite rev_involutive in H. }
    apply trimStart_nil_iff, blank_rev in Hr. rewrite rev_involutive in Hr.
    apply trimStart_nil_iff in Hr.
    assert (isWhiteSpace c = false) as Hc.
    { clear -E. induction s as [|x s IH]; simpl in E; [discriminate|].
      destruct (isWhiteSpace x) eqn:Ex; [auto | congruence]. }
    simpl in Hr. rewrite Hc in Hr. discriminate.
  - intros H. apply trimStart_nil_iff in H. now rewrite H.
Qed.

Lemma collapseSpace_blank (b : bool) (s : jsstring) :
  blank (collapseSpace b s) -> blank s.
Proof.
  unfold blank. revert b. induction s as [|c s IH]; intros b; simpl; [auto|].
  destruct (isWhiteSpace c) eqn:Ec; simpl.
  - destruct b; simpl; apply IH.
  - rewrite Ec. discriminate.
Qed.

Lemma collapseSpace_space (b : bool) (s : jsstring) (c : N) :
  In c (collapseSpace b s) -> isWhiteSpace c = true -> c = 32.
Proof.
  revert b. induction s as [|x s IH]; intros b; simpl; [tauto|].
  destruct (isWhiteSpace x) eqn:Ex.
  - destruct b; simpl; [apply IH|].
    intros [<- | H]; [reflexivity | eapply IH, H].
  - simpl. intros [<- | H] Hc; [congruence | eapply IH; eassumption].
Qed.

(** X6. The title of a chat is never empty and never longer than 45 code
    units, and the only white space in it is the single space: line
    breaks and tabs of the question do not reach the list of chats.  It
    is the default title when no message of the user has more than white
    space. *)
Theorem deriveChatTitle_is_one_short_line (msgs : list ChatMessage) :
  deriveChatTitle msgs <> []
  /\ (length (deriveChatTitle msgs) <= 45)%nat
  /\ (forall c, In c (deriveChatTitle msgs) -> isWhiteSpace c = true -> c = 32)
  /\ (Forall (fun m => role m = user -> blank (content m)) msgs ->
      deriveChatTitle msgs = DEFAULT_CHAT_TITLE).
Proof.
  unfold deriveChatTitle.
  destruct (find _ msgs) as [firstUser|] eqn:E.
  - apply find_some in E as [Hin Hq].
    apply andb_true_iff in Hq as [Hrole Hne].
    set (oneLine := trim (collapseSpace false (content firstUser))).
    assert (oneLine <> []) as Hone.
    { intros H. apply trim_nil_iff, collapseSpace_blank, trim_nil_iff in H.
      rewrite H in Hne. discriminate. }
    assert (forall c, In c oneLine -> isWhiteSpace c = true -> c = 32) as Hsp.
    { intros c Hc. apply trim_In in Hc. eapply collapseSpace_space, Hc. }
    split_and!.
    + destruct (length oneLine <=? 42)%nat; [exact Hone|].
      intros H. apply app_eq_nil in H as [_ H]. discriminate.
    + destruct (length oneLine <=? 42)%nat eqn:El.
      * apply Nat.leb_le in El. lia.
      * unfold slice0. rewrite length_app, length_take.
        change (length (js "...")) with 3%nat.
        pose proof (Nat.le_min_l 42 (length oneLine)). lia.
    + intros c. destruct (length oneLine <=? 42)%nat; [apply Hsp|].
      intros Hc. apply in_app_or in Hc as [Hc | Hc].
      * unfold slice0 in Hc. apply list_elem_of_In in Hc.
        apply elem_of_take in Hc as (i & Hc & _).
        apply Hsp, list_elem_of_In. eapply list_elem_of_lookup_2, Hc.
      * simpl in Hc. intros Hw.
        destruct Hc as [<- | [<- | [<- | []]]]; discriminate.
    + intros Hall. exfalso. rewrite Forall_forall in Hall.
      apply list_elem_of_In in Hin. specialize (Hall _ Hin).
      destruct (role firstUser); [|discriminate].
      apply trim_nil_iff in Hall; [|reflexivity].
      rewrite Hall in Hne. discriminate.
  - split_and!; try discriminate.
    + simpl. lia.
    + intros c Hc Hw. simpl in Hc.
      repeat (destruct Hc as [<- | Hc]; [try discriminate; reflexivity|]).
      destruct Hc.
    + reflexivity.
Qed.

Lemma deriveChatTitle_is_one_short_line_witness :
  deriveChatTitle
    [ {| role := user; content := js "   "; sources := None |};
      {| role := assistant; content := js "Hello"; sources := None |} ]
  = DEFAULT_CHAT_TITLE.
Proof.
  apply (proj2 (proj2 (proj2 (deriveChatTitle_is_one_short_line _)))).
  repeat constructor. discriminate.
Defined.

Example long_question_title :
  deriveChatTitle [longQuestion]
  = js "What does the report say about the third q...".
Proof. vm_compute. reflexivity. Qed.

Lemma messagesOf_updateMessagesOf_ne (x y now : jsstring)
  (updater : list ChatMessage -> list ChatMessage) (l : list ChatSession) :
  x <> y ->
  messagesOf x (updateMessagesOf y updater now l) = messagesOf x l.
Proof.
  intros Hne. unfold messagesOf, updateMessagesOf.
  induction l as [|chat l IH]; simpl; [reflexivity|].
  destruct (hasId y chat) eqn:Ey; simpl.
  - unfold hasId in *. simpl.
    destruct (jsstring_eqb (id chat) x) eqn:Ex; [|exact IH].
    unfold jsstring_eqb in *.
    apply bool_decide_eq_true in Ex, Ey. congruence.
  - destruct (hasId x chat); [reflexivity | exact IH].
Qed.

(** X7. A change of the messages of one session reaches that session and
    no other: the messages shown for its identifier are the changed ones,
    those shown for any other identifier are as before, and the list
    keeps its sessions in their order with their identifiers and dates of
    creation. *)
Theorem updateMessagesOf_changes_one_session (x y now : jsstring)
  (updater : list ChatMessage -> list ChatMessage) (l : list ChatSession) :
  messagesOf x (updateMessagesOf y updater now l)
  = (if decide (x = y) then updater <$> messagesOf x l else messagesOf x l)
  /\ List.map id (updateMessagesOf y updater now l) = List.map id l
  /\ List.map createdAt (updateMessagesOf y updater now l)
     = List.map createdAt l.
Proof.
  split_and!.
  - destruct (decide (x = y)) as [-> | Hne].
    + apply ChatFacts.messagesOf_updateMessagesOf.
    + now apply messagesOf_updateMessagesOf_ne.
  - apply ids_updateMessagesOf.
  - unfold updateMessagesOf. rewrite map_map. apply map_ext.
    intros c. now destruct (negb (hasId y c)).
Qed.

(** X8. Two changes of the messages of one session, one after the other,
    are the change by the two functions in a row, with the time of the
    second. *)
Theorem updateMessagesOf_compose (y now1 now2 : jsstring)
  (u1 u2 : list ChatMessage -> list ChatMessage) (l : list ChatSession) :
  updateMessagesOf y u2 now2 (updateMessagesOf y u1 now1 l)
  = updateMessagesOf y (fun prev => u2 (u1 prev)) now2 l.
Proof.
  unfold updateMessagesOf. rewrite map_map. apply map_ext.
  intros c. destruct (hasId y c) eqn:E; simpl.
  - unfold hasId in *. simpl. rewrite E. reflexivity.
  - rewrite E. reflexivity.
Qed.

Lemma hasId_false (chatId : jsstring) (c : ChatSession) :
  negb (hasId chatId c) = true <-> id c <> chatId.
Proof.
  unfold hasId, jsstring_eqb. rewrite negb_true_iff.
  apply bool_decide_eq_false.
Qed.

(** X9. Removing a chat from a list of two or more: the sessions left
    are those with another identifier, in their order; an identifier of
    no session leaves the list as it is; the active identifier stays
    unless it is the removed one, and then it becomes that of the first
    session left. *)
Theorem removeChat_of_several (chatId newId now : jsstring) (s : State) :
  (2 <= length (chats s))%nat ->
  let s' := removeChat chatId newId now s in
  chats s' = List.filter (fun c => negb (hasId chatId c)) (chats s)
  /\ (forall c, In c (chats s') <-> In c (chats s) /\ id c <> chatId)
  /\ (~ In chatId (List.map id (chats s)) -> chats s' = chats s)
  /\ (activeChatId s <> chatId -> activeChatId s' = activeChatId s)
  /\ (activeChatId s = chatId ->
      forall first rest, chats s' = first :: rest ->
                         activeChatId s' = id first).
Proof.
  intros Hlen. simpl.
  assert (chats (removeChat chatId newId now s)
          = List.filter (fun c => negb (hasId chatId c)) (chats s)) as Hc.
  { unfold removeChat.
    destruct (length (chats s) <=? 1)%nat eqn:E;
      [apply Nat.leb_le in E; lia|].
    destruct (List.filter _ (chats s)); [reflexivity|].
    now destruct (jsstring_eqb (activeChatId s) chatId). }
  split_and!.
  - exact Hc.
  - intros c. rewrite Hc, filter_In, hasId_false. reflexivity.
  - intros Hno. rewrite Hc. apply forallb_filter_id, forallb_forall.
    intros c Hin. apply hasId_false. intros Hid. apply Hno.
    rewrite <- Hid. now apply in_map.
  - intros Hne. unfold removeChat.
    destruct (length (chats s) <=? 1)%nat eqn:E;
      [apply Nat.leb_le in E; lia|].
    destruct (List.filter _ (chats s)); [reflexivity|].
    destruct (jsstring_eqb (activeChatId s) chatId) eqn:Ea; [|reflexivity].
    unfold jsstring_eqb in Ea. apply bool_decide_eq_true in Ea. contradiction.
  - intros Heq first rest. unfold removeChat.
    destruct (length (chats s) <=? 1)%nat eqn:E;
      [apply Nat.leb_le in E; lia|].
    destruct (List.filter _ (chats s)) as [|f r]; [discriminate|].
    unfold jsstring_eqb. rewrite bool_decide_eq_true_2 by exact Heq.
    simpl. now intros [= -> ->].
Qed.

Lemma removeChat_of_several_witness :
  chats (removeChat (js "y") (js "n") t0 three)
  = [createChatSession (js "x") t0; createChatSession (js "z") t0]
  /\ activeChatId (removeChat (js "y") (js "n") t0 three) = js "x".
Proof.
  pose proof (removeChat_of_several (js "y") (js "n") t0 three
                ltac:(simpl; lia)) as (Hc & _ & _ & _ & Ha).
  split.
  - rewrite Hc. reflexivity.
  - apply (Ha eq_refl (createChatSession (js "x") t0)
              [createChatSession (js "z") t0]).
    rewrite Hc. reflexivity.
Defined.

Lemma find_hasId_head (c : ChatSession) (rest : list ChatSession) :
  find (hasId (id c)) (c :: rest) = Some c.
Proof. simpl. now rewrite SessionTheorems.hasId_self. Qed.

Lemma existsb_hasId_head (c : ChatSession) (rest : list ChatSession) :
  existsb (hasId (id c)) (c :: rest) = true.
Proof. simpl. now rewrite SessionTheorems.hasId_self. Qed.

Lemma find_existsb_false (p : ChatSession -> bool) (l : list ChatSession) :
  existsb p l = false -> find p l = None.
Proof.
  induction l as [|c l IH]; simpl; [reflexivity|].
  destruct (p c); simpl; [discriminate | exact IH].
Qed.

(** X10. The effect that settles the active identifier: running it again
    changes nothing; after it the active identifier is that of a session
    of the list, if the list has one; and when no session has the empty
    identifier it does not change which session is shown. *)
Theorem syncActiveChatId_settles (s : State) :
  syncActiveChatId (syncActiveChatId s) = syncActiveChatId s
  /\ (chats s <> [] ->
      existsb (hasId (activeChatId (syncActiveChatId s))) (chats s) = true)
  /\ ((forall c, In c (chats s) -> id c <> []) ->
      activeChat (syncActiveChatId s) = activeChat s).
Proof.
  destruct s as [l a]. destruct l as [|first rest];
    [split_and!; [reflexivity | contradiction | reflexivity]|].
  unfold syncActiveChatId. cbn [chats activeChatId].
  destruct (isEmpty a) eqn:Ea.
  - cbn [chats activeChatId]. rewrite existsb_hasId_head.
    split_and!.
    + now destruct (isEmpty (id first)).
    + reflexivity.
    + intros Hid. unfold activeChat. cbn [chats activeChatId].
      rewrite find_hasId_head. destruct a; [|discriminate].
      rewrite find_existsb_false; [reflexivity|].
      apply not_true_is_false. intros H.
      apply existsb_exists in H as (c & Hin & Hc).
      unfold hasId, jsstring_eqb in Hc. apply bool_decide_eq_true in Hc.
      now apply (Hid c Hin).
  - destruct (existsb (hasId a) (first :: rest)) eqn:Ex;
      cbn [negb chats activeChatId].
    + rewrite Ea, Ex. now split_and!.
    + rewrite existsb_hasId_head. split_and!.
      * now destruct (isEmpty (id first)).
      * reflexivity.
      * intros _. unfold activeChat. cbn [chats activeChatId].
        rewrite find_hasId_head, (find_existsb_false _ _ Ex). reflexivity.
Qed.

Lemma syncActiveChatId_settles_witness :
  existsb (hasId (activeChatId (syncActiveChatId astray))) (chats astray)
  = true
  /\ activeChat (syncActiveChatId astray) = activeChat astray.
Proof.
  pose proof (syncActiveChatId_settles astray) as (_ & H1 & H2).
  split.
  - apply H1. discriminate.
  - apply H2. intros c Hc. simpl in Hc.
    destruct Hc as [<- | [<- | [<- | []]]]; discriminate.
Defined.

(** X11. A new chat is put first, before the sessions there were, and
    made the active one, with no messages; removing it again gives the
    list back as it was, and the first session of that list is the
    active one then, whichever was active before. *)
Theorem createNewChat_then_remove (newId now newId2 now2 : jsstring)
  (s : State) (first : ChatSession) (rest : list ChatSession) :
  chats s = first :: rest ->
  ~ In newId (List.map id (chats s)) ->
  chats (createNewChat newId now s)
  = createChatSession newId now :: first :: rest
  /\ activeChatId (createNewChat newId now s) = newId
  /\ activeChat (createNewChat newId now s)
     = Some (createChatSession newId now)
  /\ messagesOf newId (chats (createNewChat newId now s)) = Some []
  /\ removeChat newId newId2 now2 (createNewChat newId now s)
     = {| chats := chats s; activeChatId := id first |}.
Proof.
  intros Hl Hno.
  pose proof (find_hasId_head (createChatSession newId now) (chats s)) as Hf.
  cbn [id createChatSession] in Hf.
  split_and!.
  - unfold createNewChat. cbn [chats]. now rewrite Hl.
  - reflexivity.
  - unfold activeChat, createNewChat. cbn [chats activeChatId id
      createChatSession]. now rewrite Hf.
  - unfold messagesOf, createNewChat. cbn [chats]. now rewrite Hf.
  - unfold removeChat, createNewChat. cbn [chats activeChatId length].
    rewrite Hl. cbn [length Nat.leb]. rewrite <- Hl.
    pose proof (SessionTheorems.hasId_self (createChatSession newId now))
      as Hs.
    change (hasId newId (createChatSession newId now) = true) in Hs.
    cbn [List.filter]. rewrite Hs. cbn [negb].
    rewrite (forallb_filter_id _ (chats s)).
    + rewrite Hl. change (id (createChatSession newId now)) with newId.
      unfold jsstring_eqb. now rewrite bool_decide_eq_true_2.
    + apply forallb_forall. intros c Hin. apply hasId_false.
      intros Hid. apply Hno. rewrite <- Hid. now apply in_map.
Qed.

Lemma createNewChat_then_remove_witness :
  chats (createNewChat (js "n") t0 three)
  = createChatSession (js "n") t0 :: chats three
  /\ removeChat (js "n") (js "m") t0 (createNewChat (js "n") t0 three)
     = {| chats := chats three; activeChatId := js "x" |}.
Proof.
  destruct (createNewChat_then_remove (js "n") t0 (js "m") t0 three
              (createChatSession (js "x") t0)
              [createChatSession (js "y") t0; createChatSession (js "z") t0])
    as (H1 & _ & _ & _ & H5).
  - reflexivity.
  - simpl. intros [H | [H | [H | []]]]; discriminate.
  - split; [exact H1 | exact H5].
Defined.

End AppFacts.

(** ** More on [Chat] *)

Module ChatExtras.
Import Js Client Chat Notions Samples MoreNotions MoreSamples
  UpdaterTheorems ChatFacts SessionTheorems.

(** X12. The send button is disabled in just the worlds in which
    [handleSubmit] makes no request. *)
Theorem submit_button_agrees_with_handler (now : jsstring) (w : World) :
  snd (handleSubmit now w) = None <-> View.submitDisabled w = true.
Proof.
  unfold handleSubmit, View.submitDisabled. rewrite orb_comm.
  destruct (isLoading w || App.isEmpty (trim (input w))); simpl;
    split; congruence.
Qed.

Lemma activeChat_messages (a : App.State) (active : App.ChatSession) :
  App.activeChat a = Some active ->
  App.messagesOf (App.id active) (App.chats a) = Some (App.messages active).
Proof.
  unfold App.activeChat, App.messagesOf.
  destruct (find (App.hasId (App.activeChatId a)) (App.chats a)) as [c|] eqn:E.
  - intros [= ->]. pose proof (find_some _ _ E) as [_ Hid].
    unfold App.hasId, jsstring_eqb in Hid. apply bool_decide_eq_true in Hid.
    now rewrite Hid, E.
  - destruct (App.chats a) as [|first rest]; [discriminate|].
    intros [= ->]. simpl. now rewrite hasId_self.
Qed.

(** X13. A question that is accepted: the request carries the trimmed
    question, the messages of the session as they were, and a new
    controller that is not aborted; the session shown gets the question
    and an empty reply at its end and no other session changes; the
    input is emptied, loading is set, and queue, end flag and interval
    are reset. *)
Theorem handleSubmit_accepted (now : jsstring) (w0 : World) :
  View.submitDisabled w0 = false ->
  shown w0 ->
  (forall n : nat, n ∈ aborted w0 -> (n < controllers w0)%nat) ->
  exists old : list ChatMessage,
    App.messagesOf (chatId w0) (App.chats (app w0)) = Some old
    /\ snd (handleSubmit now w0)
       = Some {| question := trim (input w0); chatHistory := old;
                 controller := {| ctrl := controllers w0;
                                  boundTo := chatId w0 |} |}
    /\ App.messagesOf (chatId w0)
         (App.chats (app (fst (handleSubmit now w0))))
       = Some (old ++ [ {| role := user; content := trim (input w0);
                           sources := None |};
                        {| role := assistant; content := [];
                           sources := Some [] |} ])
    /\ (forall x, x <> chatId w0 ->
          App.messagesOf x (App.chats (app (fst (handleSubmit now w0))))
          = App.messagesOf x (App.chats (app w0)))
    /\ input (fst (handleSubmit now w0)) = []
    /\ isLoading (fst (handleSubmit now w0)) = true
    /\ tokenQueueRef (fst (handleSubmit now w0)) = []
    /\ streamDoneRef (fst (handleSubmit now w0)) = false
    /\ typingTimerRef (fst (handleSubmit now w0)) = None
    /\ controllers w0 ∉ aborted (fst (handleSubmit now w0)).
Proof.
  intros Hd (active & Ha & Hid) Hab.
  pose proof (activeChat_messages _ _ Ha) as Hm. rewrite <- Hid in Hm.
  exists (App.messages active).
  unfold View.submitDisabled in Hd. rewrite orb_comm in Hd.
  unfold handleSubmit, messagesProp. rewrite Hd, Ha.
  cbn [fst snd]. fields.
  split_and!; try reflexivity.
  - exact Hm.
  - rewrite messagesOf_updateMessagesOf, Hm. reflexivity.
  - intros x Hx. now apply AppFacts.messagesOf_updateMessagesOf_ne.
  - intros Hin. apply Hab in Hin. lia.
Qed.

Lemma shown_world0 : shown world0.
Proof. exists session1. split; reflexivity. Qed.

Lemma handleSubmit_accepted_witness :
  exists old : list ChatMessage,
    App.messagesOf (chatId world0) (App.chats (app world0)) = Some old
    /\ snd (handleSubmit t0 world0)
       = Some {| question := trim (input world0); chatHistory := old;
                 controller := {| ctrl := controllers world0;
                                  boundTo := chatId world0 |} |}.
Proof.
  destruct (handleSubmit_accepted t0 world0 eq_refl shown_world0
              (proj1 (proj2 TypewriterTheorems.mounted_world0)))
    as (old & H1 & H2 & _).
  exists old. split; assumption.
Defined.

Lemma pending_step (c : Controller) (w : World) (e : Event) :
  pending c w -> streamEvent c e -> isDone e = false -> pending c (step w e).
Proof.
  intros (Hl & Hr & Hd & Hab) He Hnd.
  pose proof (signalAborted_false c w Hab) as Hsig.
  destruct e as [s | | c' token | c' now srcs | c' | | now | | | |];
    simpl in He; try contradiction; try discriminate; subst; simpl.
  - unfold pending. fields. now split_and!.
  - unfold tokenCallback, startTypewriter. rewrite Hsig. fields.
    destruct (typingTimerRef w); unfold pending; fields; now split_and!.
  - unfold sourcesCallback. rewrite Hsig. unfold pending. fields.
    now split_and!.
  - unfold tick. destruct (typingTimerRef w); [|now split_and!].
    unfold finalizeIfStreamFinished, appendAssistantChunk.
    destruct (length (tokenQueueRef w) =? 0)%nat; fields; rewrite Hd;
      cbn [andb]; unfold pending; fields; now split_and!.
Qed.

(** X14. As long as the end of the stream has not come, whatever tokens,
    sources and ticks do, loading stays set and the controller stays in
    use: a stream that ends without its [done] event leaves the reply
    loading. *)
Theorem loading_until_done (now0 : jsstring) (w0 w : World) (req : Request)
  (trace : list Event) :
  mounted w0 ->
  handleSubmit now0 w0 = (w, Some req) ->
  Forall (streamEvent (controller req)) trace ->
  existsb isDone trace = false ->
  isLoading (run w trace) = true
  /\ requestControllerRef (run w trace) = Some (ctrl (controller req))
  /\ View.submitDisabled (run w trace) = true.
Proof.
  intros Hm Hs Ht Hnd.
  assert (pending (controller req) w) as Hp.
  { destruct Hm as (_ & Hab & _). unfold handleSubmit in Hs.
    destruct (App.isEmpty (trim (input w0)) || isLoading w0); [discriminate|].
    injection Hs as <- <-. unfold pending. simpl. fields.
    split_and!; try reflexivity. intros Hin. apply Hab in Hin. lia. }
  clear Hs Hm.
  assert (pending (controller req) (run w trace)) as (Hl & Hr & _).
  { revert w Hp. induction trace as [|e trace IH]; intros w Hp; [exact Hp|].
    inversion Ht as [|? ? He Ht']; subst. simpl in Hnd.
    apply orb_false_iff in Hnd as [Hnd1 Hnd2].
    simpl. apply IH; auto. now apply pending_step. }
  split_and!; try assumption.
  unfold View.submitDisabled. now rewrite Hl.
Qed.

Lemma loading_until_done_witness :
  isLoading (run world1 trace3) = true
  /\ requestControllerRef (run world1 trace3) = Some 0%nat
  /\ View.submitDisabled (run world1 trace3) = true.
Proof.
  apply (loading_until_done t0 world0 world1 request1 trace3).
  - exact TypewriterTheorems.mounted_world0.
  - reflexivity.
  - repeat constructor.
  - reflexivity.
Defined.

Lemma finalize_app (w : World) : app (finalizeIfStreamFinished w) = app w.
Proof.
  unfold finalizeIfStreamFinished.
  now destruct (streamDoneRef w && (length (tokenQueueRef w) =? 0)%nat).
Qed.

Lemma finalize_timer (w : World) :
  tokenQueueRef w <> [] ->
  typingTimerRef (finalizeIfStreamFinished w) = typingTimerRef w.
Proof.
  intros H. unfold finalizeIfStreamFinished.
  destruct (tokenQueueRef w); [contradiction|].
  simpl. now rewrite andb_false_r.
Qed.

Lemma ticks_reveal (t : jsstring) (init : list ChatMessage)
  (nows : list jsstring) :
  forall (w : World) (reply : ChatMessage),
    (nows = [] \/ typingTimerRef w = Some t) ->
    App.messagesOf t (App.chats (app w)) = Some (init ++ [reply]) ->
    role reply = assistant ->
    (length nows <= length (tokenQueueRef w))%nat ->
    App.messagesOf t (App.chats (app (run w (List.map Tick nows))))
    = Some (init ++ [ {| role := role reply;
                         content := content reply
                                    ++ take (length nows) (tokenQueueRef w);
                         sources := sources reply |} ])
    /\ tokenQueueRef (run w (List.map Tick nows))
       = drop (length nows) (tokenQueueRef w).
Proof.
  induction nows as [|now nows IH]; intros w reply Ht Hm Hrole Hlen.
  - simpl. rewrite app_nil_r. now destruct reply.
  - destruct Ht as [Ht | Ht]; [discriminate|].
    destruct (tokenQueueRef w) as [|x q] eqn:Eq; [simpl in Hlen; lia|].
    simpl in Hlen. cbn [List.map run fold_left].
    change (fold_left step (List.map Tick nows) (step w (Tick now)))
      with (run (step w (Tick now)) (List.map Tick nows)).
    assert (tokenQueueRef (step w (Tick now)) = q) as Hq
      by (apply (tick_queue now t x q w Ht Eq)).
    assert (App.messagesOf t (App.chats (app (step w (Tick now))))
            = Some (init ++ [ {| role := role reply;
                                 content := content reply ++ [x];
                                 sources := sources reply |} ])) as Hm'.
    { simpl. unfold tick. rewrite Ht, Eq. simpl.
      rewrite finalize_app. unfold appendAssistantChunk.
      rewrite messagesOf_onMessagesChange. fields. rewrite Hm. simpl.
      unfold appendUpdater. now rewrite changeLastAssistant_snoc, Hrole. }
    assert (nows = [] \/ typingTimerRef (step w (Tick now)) = Some t) as Ht'.
    { destruct nows as [|n nows]; [now left|]. right.
      simpl. unfold tick. rewrite Ht, Eq. simpl.
      rewrite finalize_timer; [fields; exact Ht|].
      unfold appendAssistantChunk. fields.
      destruct q; [simpl in Hlen; lia | discriminate]. }
    destruct (IH _ _ Ht' Hm' Hrole ltac:(rewrite Hq; lia)) as [H1 H2].
    rewrite H1, H2, Hq. simpl. rewrite <- app_assoc. now split.
Qed.

(** X15. Each tick of the running interval shows one code unit more: on a
    session whose last message is a reply, [n] ticks, for [n] up to the
    length of the queue, add the first [n] code units of the queue to
    the reply, in their order, and leave the rest queued. *)
Theorem ticks_reveal_one_unit_each (t : jsstring) (init : list ChatMessage)
  (reply : ChatMessage) (nows : list jsstring) (w : World) :
  typingTimerRef w = Some t ->
  App.messagesOf t (App.chats (app w)) = Some (init ++ [reply]) ->
  role reply = assistant ->
  (length nows <= length (tokenQueueRef w))%nat ->
  App.messagesOf t (App.chats (app (run w (List.map Tick nows))))
  = Some (init ++ [ {| role := role reply;
                       content := content reply
                                  ++ take (length nows) (tokenQueueRef w);
                       sources := sources reply |} ])
  /\ tokenQueueRef (run w (List.map Tick nows))
     = drop (length nows) (tokenQueueRef w).
Proof. intros Ht. apply ticks_reveal. now right. Qed.

Lemma ticks_reveal_one_unit_each_witness :
  App.messagesOf (js "c1")
    (App.chats (app (run worldQueued (List.map Tick [t0; t0; t0]))))
  = Some ([ {| role := user; content := js "Hi?"; sources := None |} ]
          ++ [ {| role := assistant;
                  content := [] ++ take 3 (tokenQueueRef worldQueued);
                  sources := Some [] |} ])
  /\ tokenQueueRef (run worldQueued (List.map Tick [t0; t0; t0]))
     = drop 3 (tokenQueueRef worldQueued).
Proof.
  apply (ticks_reveal_one_unit_each (js "c1")
           [ {| role := user; content := js "Hi?"; sources := None |} ]
           {| role := assistant; content := []; sources := Some [] |}
           [t0; t0; t0] worldQueued).
  - reflexivity.
  - vm_compute. reflexivity.
  - reflexivity.
  - vm_compute. lia.
Defined.

(** X16. A callback of a stream changes the messages of no session but
    the one the stream was started for, and a tick those of no session
    but the one the interval was started for; tokens and the end of the
    stream change no messages at all. *)
Theorem stream_changes_its_session_only :
  (forall (w : World) (e : Event) (c : Controller) (x : jsstring),
     controllerOf e = Some c -> x <> boundTo c ->
     App.messagesOf x (App.chats (app (step w e)))
     = App.messagesOf x (App.chats (app w)))
  /\ (forall (w : World) (now x : jsstring),
        typingTimerRef w <> Some x ->
        App.messagesOf x (App.chats (app (tick now w)))
        = App.messagesOf x (App.chats (app w)))
  /\ (forall (w : World) (c : Controller) (token : jsstring),
        app (step w (Token c token)) = app w
        /\ app (step w (Done c)) = app w).
Proof.
  split_and!.
  - intros w e c x He Hx.
    destruct e as [| | c' ? | c' ? ? | c' | c' ? ? | | | | |];
      try discriminate; injection He as ->; simpl.
    + unfold tokenCallback, startTypewriter.
      destruct (signalAborted c w); [reflexivity|].
      fields. now destruct (typingTimerRef w).
    + unfold sourcesCallback. destruct (signalAborted c w); [reflexivity|].
      fields. now apply AppFacts.messagesOf_updateMessagesOf_ne.
    + unfold doneCallback. destruct (signalAborted c w); [reflexivity|].
      now rewrite finalize_app.
    + unfold errorCallback. destruct (signalAborted c w); [reflexivity|].
      fields. now apply AppFacts.messagesOf_updateMessagesOf_ne.
  - intros w now x Hx. unfold tick.
    destruct (typingTimerRef w) as [t|]; [|reflexivity].
    destruct (length (tokenQueueRef w) =? 0)%nat; rewrite finalize_app;
      [reflexivity|].
    unfold appendAssistantChunk. fields.
    apply AppFacts.messagesOf_updateMessagesOf_ne. congruence.
  - intros w c token. simpl. split.
    + unfold tokenCallback, startTypewriter.
      destruct (signalAborted c w); [reflexivity|].
      fields. now destruct (typingTimerRef w).
    + unfold doneCallback. destruct (signalAborted c w); [reflexivity|].
      now rewrite finalize_app.
Qed.

Lemma stream_changes_its_session_only_witness :
  App.messagesOf (js "c2")
    (App.chats (app (step worldSwitched (Error stream1 t0 (js "late")))))
  = App.messagesOf (js "c2") (App.chats (app worldSwitched)).
Proof.
  apply (proj1 stream_changes_its_session_only worldSwitched
           (Error stream1 t0 (js "late")) stream1 (js "c2") eq_refl).
  discriminate.
Defined.

(** X17. Cancelling twice is cancelling once: the effect of a change of
    session and the cleanup of the component leave the world they have
    made as it is when run again, the cleanup after the effect too, and
    with no controller in use they abort nothing. *)
Theorem cancel_is_idempotent (w : World) :
  chatIdEffect (chatIdEffect w) = chatIdEffect w
  /\ unmountCleanup (unmountCleanup w) = unmountCleanup w
  /\ unmountCleanup (chatIdEffect w) = chatIdEffect w
  /\ (requestControllerRef w = None ->
      aborted (chatIdEffect w) = aborted w
      /\ aborted (unmountCleanup w) = aborted w).
Proof.
  unfold chatIdEffect, unmountCleanup. fields.
  destruct (requestControllerRef w); fields;
    split_and!; try reflexivity; intros H; try discriminate; now split.
Qed.

Lemma cancel_is_idempotent_witness :
  aborted (chatIdEffect world0) = aborted world0
  /\ aborted (unmountCleanup world0) = aborted world0.
Proof.
  apply (proj2 (proj2 (proj2 (cancel_is_idempotent world0)))). reflexivity.
Defined.

(** X18. No callback of a stream, no tick, no typing and no submission
    aborts a controller: only a change of the session shown and the
    cleanup of the component do, so an error or the end of a stream
    leaves its later callbacks in force. *)
Theorem only_leaving_aborts (w : World) (e : Event) :
  leavesSession e = false -> aborted (step w e) = aborted w.
Proof.
  intros He. destruct e; try discriminate; simpl.
  - reflexivity.
  - unfold handleSubmit.
    now destruct (App.isEmpty (trim (input w)) || isLoading w).
  - unfold tokenCallback, startTypewriter.
    destruct (signalAborted c w); [reflexivity|].
    fields. now destruct (typingTimerRef w).
  - unfold sourcesCallback. now destruct (signalAborted c w).
  - unfold doneCallback. destruct (signalAborted c w); [reflexivity|].
    now rewrite aborted_finalize.
  - unfold errorCallback. now destruct (signalAborted c w).
  - unfold tick. destruct (typingTimerRef w); [|reflexivity].
    now destruct (length (tokenQueueRef w) =? 0)%nat;
      rewrite aborted_finalize.
Qed.

Lemma only_leaving_aborts_witness :
  aborted (step (run world1 trace2) (Error stream1 t0 (js "boom")))
  = aborted (run world1 trace2).
Proof. apply only_leaving_aborts. reflexivity. Defined.

(** After its error a stream that goes on is still shown: the token that
    comes late is added to the notice. *)
Example token_after_error :
  App.messagesOf (js "c1")
    (App.chats (app (run world1
       (trace2 ++ [Error stream1 t0 (js "boom"); Token stream1 (js "!");
                   Tick t0]))))
  = Some [ {| role := user; content := js "Hi?"; sources := None |};
           {| role := assistant; content := errorNotice ++ js "boom!";
              sources := Some [] |} ].
Proof. vm_compute. reflexivity. Qed.

End ChatExtras.

(** ** More on the functions that change the message list *)

Module UpdaterExtras.
Import Js Client Chat Notions UpdaterTheorems.

Lemma changeLastAssistant_compose (f g : ChatMessage -> ChatMessage)
  (prev : list ChatMessage) :
  (forall m, role (f m) = role m) ->
  changeLastAssistant g (changeLastAssistant f prev)
  = changeLastAssistant (fun m => g (f m)) prev.
Proof.
  intros Hf. destruct (last prev) as [l|] eqn:E.
  - apply last_Some in E as [init ->].
    rewrite !changeLastAssistant_snoc.
    destruct (Role_eqb (role l) assistant) eqn:Er;
      rewrite ?Hf, Er; reflexivity.
  - apply last_None in E as ->. reflexivity.
Qed.

Lemma changeLastAssistant_ext (f g : ChatMessage -> ChatMessage)
  (prev : list ChatMessage) :
  (forall m, f m = g m) ->
  changeLastAssistant f prev = changeLastAssistant g prev.
Proof.
  intros H. destruct (last prev) as [l|] eqn:E.
  - apply last_Some in E as [init ->].
    now rewrite !changeLastAssistant_snoc, H.
  - apply last_None in E as ->. reflexivity.
Qed.

(** X19. How the changes of the message list add up: two chunks appended
    one after the other are their concatenation appended once; of two
    lists of sources the later one stays; the error notice wipes out what
    was appended before it; and sources and chunks do not get in each
    other's way. *)
Theorem updaters_compose (a b error : jsstring) (s1 s2 : list Source)
  (prev : list ChatMessage) :
  appendUpdater b (appendUpdater a prev) = appendUpdater (a ++ b) prev
  /\ sourcesUpdater s2 (sourcesUpdater s1 prev) = sourcesUpdater s2 prev
  /\ errorUpdater error (appendUpdater a prev) = errorUpdater error prev
  /\ sourcesUpdater s1 (appendUpdater a prev)
     = appendUpdater a (sourcesUpdater s1 prev).
Proof.
  unfold appendUpdater, sourcesUpdater, errorUpdater.
  rewrite !changeLastAssistant_compose by reflexivity.
  split_and!; apply changeLastAssistant_ext; intros m; simpl;
    now rewrite <- ?app_assoc.
Qed.

End UpdaterExtras.

(** ** More on the check of the extension *)

Module UploadExtras.
Import Js FileUpload JsFacts Notions UploadTheorems.

Lemma cut_single (c : N) (r e : jsstring) :
  cut [c] r = None -> cut [c] (r ++ c :: e) = Some (r, e).
Proof.
  induction r as [|x r IH]; intros H.
  - simpl. now rewrite N.eqb_refl.
  - cbn [cut stripPrefix] in H. cbn [app cut stripPrefix].
    destruct (c =? x); [discriminate|].
    destruct (cut [c] r) as [[a b]|] eqn:E; [discriminate|].
    now rewrite (IH eq_refl).
Qed.

Lemma split_last_segment (c : N) (base e : jsstring) :
  cut [c] e = None ->
  exists init r, split [c] (base ++ [c] ++ e) = init ++ [r; e].
Proof.
  intros He.
  assert ([c] <> []) as Hsep by discriminate.
  rewrite (split_app _ _ _ Hsep).
  destruct (split_join [c] base Hsep) as [_ Hr].
  set (r := pop_or_empty (split [c] base)) in *.
  exists (removelast (split [c] base)), r. f_equal.
  change (r ++ [c] ++ e) with (r ++ c :: e).
  rewrite (split_cut_Some _ _ _ _ Hsep (cut_single c r e Hr)).
  now rewrite (split_cut_None _ _ He).
Qed.

Lemma extensionOf_last (base e : jsstring) :
  cut (js ".") e = None -> extensionOf (base ++ js "." ++ e) = Some e.
Proof.
  intros He. unfold extensionOf.
  change (js ".") with [46] in *.
  destruct (split_last_segment 46 base e He) as (init & r & ->).
  assert (last (init ++ [r; e]) = Some e) as Hl
    by (rewrite last_app; reflexivity).
  destruct init as [|a [|b init]]; simpl in *; exact Hl.
Qed.

(** X20. A file whose name has a dot is judged by what follows its last
    dot alone: with ASCII characters there, the file is handed to
    [uploadFile] when that text is [pdf], [docx], [doc] or [txt] in any
    case of its letters, and is refused with the error status
    otherwise, whatever comes before the dot. *)
Theorem upload_judged_by_last_extension
  (unicodeLower : jsstring -> jsstring) (base e : jsstring) :
  cut (js ".") e = None ->
  isAsciiOnly e = true ->
  let name := base ++ js "." ++ e in
  snd (handleUpload unicodeLower name)
  = (if allowedExtension e then Some name else None)
  /\ status (fst (handleUpload unicodeLower name))
     = (if allowedExtension e then uploading else error).
Proof.
  intros He Ha name.
  pose proof (handleUpload_with_extension unicodeLower name e
                (extensionOf_last base e He) Ha) as H.
  split; [exact H|].
  rewrite handleUpload_decides in H. unfold handleUpload.
  destruct (includes allowedExtensions (extOf unicodeLower name));
    destruct (allowedExtension e); simpl; congruence.
Qed.

Lemma upload_judged_by_last_extension_witness :
  snd (handleUpload (fun s => s) (js "notes.final" ++ js "." ++ js "TxT"))
  = Some (js "notes.final" ++ js "." ++ js "TxT")
  /\ status (fst (handleUpload (fun s => s)
                    (js "notes.final" ++ js "." ++ js "TxT")))
     = uploading.
Proof.
  apply (upload_judged_by_last_extension (fun s => s) (js "notes.final")
           (js "TxT")); reflexivity.
Defined.

End UploadExtras.

(** ** More on the change of the session shown *)

Module SwitchExtras.
Import Js Client Chat Notions Samples MoreNotions ChatFacts SessionTheorems.

Lemma rerender_to (a : App.State) (w : World) (c : App.ChatSession) :
  App.activeChat (App.syncActiveChatId a) = Some c ->
  rerender a w
  = if jsstring_eqb (App.id c) (chatId w)
    then set_app (App.syncActiveChatId a) w
    else chatIdEffect (set_chatId (App.id c)
                         (set_app (App.syncActiveChatId a) w)).
Proof. intros H. unfold rerender. now rewrite H. Qed.

Lemma find_existsb (x : jsstring) (l : list App.ChatSession) :
  existsb (App.hasId x) l = true ->
  exists c, find (App.hasId x) l = Some c /\ App.id c = x.
Proof.
  induction l as [|c l IH]; simpl; [discriminate|].
  destruct (App.hasId x c) eqn:E; simpl; [|exact IH].
  intros _. exists c. split; [reflexivity|].
  unfold App.hasId, jsstring_eqb in E. now apply bool_decide_eq_true in E.
Qed.

Lemma isEmpty_false (x : jsstring) : x <> [] -> App.isEmpty x = false.
Proof. now destruct x. Qed.

(** The active session after a session of the list is selected, and
    after a new chat is made. *)
Lemma activeChat_after_switch (w : World) (e : Event) (x : jsstring) :
  (e = SelectChat x /\ existsb (App.hasId x) (App.chats (app w)) = true
   /\ x <> [])
  \/ (exists now, e = NewChat x now) ->
  exists a c, step w e = rerender a w
              /\ App.activeChat (App.syncActiveChatId a) = Some c
              /\ App.id c = x.
Proof.
  intros [(-> & Hx & Hne) | (now & ->)].
  - destruct (find_existsb _ _ Hx) as (c & Hf & Hid).
    exists (App.setActiveChatId x (app w)), c.
    split; [reflexivity|]. split; [|exact Hid].
    unfold App.syncActiveChatId, App.setActiveChatId.
    cbn [App.chats App.activeChatId].
    destruct (App.chats (app w)) as [|first rest] eqn:El; [discriminate|].
    rewrite (isEmpty_false _ Hne), Hx. cbn [negb].
    unfold App.activeChat. cbn [App.chats App.activeChatId]. now rewrite Hf.
  - exists (App.createNewChat x now (app w)), (App.createChatSession x now).
    split; [reflexivity|]. split; [|reflexivity].
    pose proof (hasId_self (App.createChatSession x now)) as Hs.
    change (App.hasId x (App.createChatSession x now) = true) in Hs.
    unfold App.syncActiveChatId, App.createNewChat.
    cbn [App.chats App.activeChatId].
    change (App.id (App.createChatSession x now)) with x.
    assert (App.activeChat
              {| App.chats := App.createChatSession x now
                              :: App.chats (app w);
                 App.activeChatId := x |}
            = Some (App.createChatSession x now)) as Ha.
    { unfold App.activeChat. cbn [App.chats App.activeChatId find].
      now rewrite Hs. }
    destruct (App.isEmpty x); [exact Ha|].
    cbn [existsb]. rewrite Hs. exact Ha.
Qed.

(** X21. Selecting a session of the list, or making a new chat, shows
    that session.  When it is another one than was shown, the reply in
    flight is given up: its controller is aborted, the interval is
    stopped, queue, end flag and input are emptied and loading is
    cleared.  When it is the one that was shown, the component is left
    as it is. *)
Theorem switch_gives_up_reply (w : World) (e : Event) (x : jsstring) :
  (e = SelectChat x /\ existsb (App.hasId x) (App.chats (app w)) = true
   /\ x <> [])
  \/ (exists now, e = NewChat x now) ->
  chatId (step w e) = x
  /\ (x <> chatId w ->
      isLoading (step w e) = false
      /\ tokenQueueRef (step w e) = []
      /\ typingTimerRef (step w e) = None
      /\ requestControllerRef (step w e) = None
      /\ streamDoneRef (step w e) = false
      /\ input (step w e) = []
      /\ forall n, requestControllerRef w = Some n -> n ∈ aborted (step w e))
  /\ (x = chatId w ->
      isLoading (step w e) = isLoading w
      /\ tokenQueueRef (step w e) = tokenQueueRef w
      /\ typingTimerRef (step w e) = typingTimerRef w
      /\ requestControllerRef (step w e) = requestControllerRef w
      /\ streamDoneRef (step w e) = streamDoneRef w
      /\ input (step w e) = input w
      /\ aborted (step w e) = aborted w).
Proof.
  intros He.
  destruct (activeChat_after_switch w e x He) as (a & c & -> & Ha & Hid).
  rewrite (rerender_to a w c Ha), Hid.
  unfold jsstring_eqb. destruct (decide (x = chatId w)) as [Heq | Hne].
  - rewrite bool_decide_eq_true_2 by exact Heq. fields.
    split; [congruence|].
    split; [intros H; contradiction | intros _; now split_and!].
  - rewrite bool_decide_eq_false_2 by exact Hne. unfold chatIdEffect. fields.
    destruct (requestControllerRef w) as [n|] eqn:En; fields;
      (split; [reflexivity|]);
      (split; [intros _ | intros H; contradiction]);
      split_and!; try reflexivity.
    + intros m [= <-]. apply elem_of_union. left. now apply elem_of_singleton.
    + discriminate.
Qed.

Lemma switch_gives_up_reply_witness :
  chatId (step (run world1 trace2) (NewChat (js "c2") t0)) = js "c2"
  /\ isLoading (step (run world1 trace2) (NewChat (js "c2") t0)) = false
  /\ tokenQueueRef (step (run world1 trace2) (NewChat (js "c2") t0)) = [].
Proof.
  destruct (switch_gives_up_reply (run world1 trace2)
              (NewChat (js "c2") t0) (js "c2")
              (or_intror (ex_intro _ t0 eq_refl))) as (H1 & H2 & _).
  assert (js "c2" <> chatId (run world1 trace2)) as Hne
    by (vm_compute; discriminate).
  destruct (H2 Hne) as (Hl & Hq & _). now split_and!.
Defined.

Lemma find_filter (p q : App.ChatSession -> bool) (l : list App.ChatSession) :
  (forall c, p c = true -> q c = true) ->
  find p (List.filter q l) = find p l.
Proof.
  intros H. induction l as [|c l IH]; simpl; [reflexivity|].
  destruct (q c) eqn:Eq; simpl.
  - now destruct (p c).
  - destruct (p c) eqn:Ep; [|exact IH].
    apply H in Ep. congruence.
Qed.

(** X22. Removing a chat that is not the one shown, from a list of two
    or more, does not disturb the reply in flight: the same session
    stays shown with its messages, and loading, queue, interval,
    controller, end flag, input and the aborted signals are as they
    were. *)
Theorem removing_another_chat_keeps_reply
  (w : World) (y newId now : jsstring) (active : App.ChatSession) :
  find (App.hasId (App.activeChatId (app w))) (App.chats (app w))
  = Some active ->
  chatId w = App.id active ->
  chatId w <> [] ->
  y <> chatId w ->
  (2 <= length (App.chats (app w)))%nat ->
  let w' := step w (RemoveChat y newId now) in
  chatId w' = chatId w
  /\ App.messagesOf (chatId w) (App.chats (app w'))
     = App.messagesOf (chatId w) (App.chats (app w))
  /\ isLoading w' = isLoading w
  /\ tokenQueueRef w' = tokenQueueRef w
  /\ typingTimerRef w' = typingTimerRef w
  /\ requestControllerRef w' = requestControllerRef w
  /\ streamDoneRef w' = streamDoneRef w
  /\ input w' = input w
  /\ aborted w' = aborted w.
Proof.
  intros Hf Hid Hne Hy Hlen.
  pose proof (find_some _ _ Hf) as [Hin Ha].
  unfold App.hasId, jsstring_eqb in Ha. apply bool_decide_eq_true in Ha.
  assert (App.activeChatId (app w) = chatId w) as Hact by congruence.
  set (keep := fun c => negb (App.hasId y c)).
  assert (forall c, App.hasId (chatId w) c = true -> keep c = true) as Hkeep.
  { intros c Hc. unfold keep, App.hasId, jsstring_eqb in *.
    apply bool_decide_eq_true in Hc. apply negb_true_iff.
    apply bool_decide_eq_false. congruence. }
  assert (App.removeChat y newId now (app w)
          = {| App.chats := List.filter keep (App.chats (app w));
               App.activeChatId := chatId w |}) as Hr.
  { unfold App.removeChat.
    destruct (length (App.chats (app w)) <=? 1)%nat eqn:E;
      [apply Nat.leb_le in E; lia|].
    fold keep. rewrite Hact.
    unfold jsstring_eqb at 1.
    rewrite bool_decide_eq_false_2 by congruence.
    now destruct (List.filter keep (App.chats (app w))). }
  assert (find (App.hasId (chatId w)) (List.filter keep (App.chats (app w)))
          = Some active) as Hf'
    by (rewrite (find_filter _ _ _ Hkeep); congruence).
  assert (App.syncActiveChatId (App.removeChat y newId now (app w))
          = App.removeChat y newId now (app w)) as Hs.
  { rewrite Hr. unfold App.syncActiveChatId. cbn [App.chats App.activeChatId].
    destruct (List.filter keep (App.chats (app w))) as [|first rest] eqn:El;
      [reflexivity|].
    rewrite (isEmpty_false _ Hne).
    assert (existsb (App.hasId (chatId w)) (first :: rest) = true) as Hex.
    { apply existsb_exists. exists active.
      apply find_some in Hf'. exact Hf'. }
    now rewrite Hex. }
  assert (App.activeChat (App.syncActiveChatId
                            (App.removeChat y newId now (app w)))
          = Some active) as Hac.
  { rewrite Hs, Hr. unfold App.activeChat. cbn [App.chats App.activeChatId].
    now rewrite Hf'. }
  simpl. rewrite (rerender_to _ w active Hac), Hs, Hr, <- Hid.
  unfold jsstring_eqb. rewrite bool_decide_eq_true_2 by reflexivity.
  fields. split_and!; try reflexivity.
  unfold App.messagesOf. now rewrite (find_filter _ _ _ Hkeep).
Qed.

Lemma removing_another_chat_keeps_reply_witness :
  chatId (step worldSwitched (RemoveChat (js "c1") (js "n") t0))
  = chatId worldSwitched
  /\ App.messagesOf (chatId worldSwitched)
       (App.chats (app (step worldSwitched
                          (RemoveChat (js "c1") (js "n") t0))))
     = App.messagesOf (chatId worldSwitched) (App.chats (app worldSwitched)).
Proof.
  destruct (removing_another_chat_keeps_reply worldSwitched (js "c1")
              (js "n") t0 (App.createChatSession (js "c2") t0))
    as (H1 & H2 & _).
  - vm_compute. reflexivity.
  - vm_compute. reflexivity.
  - vm_compute. discriminate.
  - vm_compute. discriminate.
  - vm_compute. lia.
  - split; assumption.
Defined.

End SwitchExtras.
